(** * Verification of the snippet codec of snippt-link (src/src/compression.ts)

    A JavaScript string is a list of UTF-16 code units, written here as
    [list Z].  The browser built-ins the codec calls ([String.prototype.split],
    [join], [replace], [trim], [btoa], [atob], [history.replaceState]) are
    written out; the fflate library ([strToU8], [strFromU8], [compressSync],
    [decompressSync]) is a record of functions with the contract that fflate
    documents ([fflate_ok]). *)

From Stdlib Require Import ZArith List Bool Lia String Ascii.
Import ListNotations.
Open Scope Z_scope.

Definition str := list Z.

(** String literals: an ASCII [string] read as code units. *)
Definition js (s : string) : str :=
  map (fun a => Z.of_nat (nat_of_ascii a)) (list_ascii_of_string s).

Definition LF : Z := 10.
Definition CR : Z := 13.
Definition PIPE : Z := 124.
Definition HASH : Z := 35.
Definition EQ : Z := 61.

(** ** String built-ins *)

(** [prefixb p x]: [x.startsWith(p)]. *)
Fixpoint prefixb (p x : str) : bool :=
  match p, x with
  | [], _ => true
  | c :: p', d :: x' => (c =? d) && prefixb p' x'
  | _ :: _, [] => false
  end.

(** [String.prototype.split(sep)] for a non-empty separator: the string is
    scanned left to right and cut at every non-overlapping occurrence of
    [sep]; [skip] counts the code units of a matched separator still to be
    consumed, [cur] is the current piece, reversed. *)
Fixpoint split_go (sep x : str) (skip : nat) (cur : str) : list str :=
  match x with
  | [] => [rev cur]
  | c :: x' =>
      match skip with
      | S k => split_go sep x' k cur
      | O =>
          if prefixb sep x
          then rev cur :: split_go sep x' (pred (List.length sep)) []
          else split_go sep x' O (c :: cur)
      end
  end.

Definition split (x sep : str) : list str := split_go sep x O [].

(** [Array.prototype.join(sep)]. *)
Fixpoint join (xs : list str) (sep : str) : str :=
  match xs with
  | [] => []
  | [x] => x
  | x :: xs' => x ++ sep ++ join xs' sep
  end.

(** [text.split(pattern).join(token)], the global literal replace of the
    dictionary stage. *)
Definition replace_all (text pattern token : str) : str :=
  join (split text pattern) token.

(** JavaScript's WhiteSpace and LineTerminator code units, the set that
    [trim] and [trimEnd] remove. *)
Definition is_ws (u : Z) : bool :=
  (u =? 9) || (u =? 10) || (u =? 11) || (u =? 12) || (u =? 13) || (u =? 32)
  || (u =? 160) || (u =? 5760) || ((8192 <=? u) && (u <=? 8202))
  || (u =? 8232) || (u =? 8233) || (u =? 8239) || (u =? 8287)
  || (u =? 12288) || (u =? 65279).

Fixpoint drop_while (f : Z -> bool) (s : str) : str :=
  match s with
  | [] => []
  | c :: s' => if f c then drop_while f s' else s
  end.

Definition trimEnd (s : str) : str := rev (drop_while is_ws (rev s)).
Definition trimStart (s : str) : str := drop_while is_ws s.
Definition trim (s : str) : str := trimStart (trimEnd s).

(** ** Dictionary stage (lines 13-70) *)

Definition DICTIONARY : list (str * str) :=
  [ (js "    ", [57344]);
    (js "console.log(", [57345]);
    (js "function ", [57346]);
    (js "return ", [57347]);
    (js "const ", [57348]);
    (js "export ", [57349]);
    (js "import ", [57350]);
    (js "async ", [57351]);
    (js "await ", [57352]);
    (js "class ", [57353]);
    (js "this.", [57354]);
    (js "null", [57355]);
    (js "true", [57356]);
    (js "false", [57357]);
    (js "undefined", [57358]);
    (js "=> {", [57359]);
    (js "() {", [57360]);
    (js ") {", [57361]);
    ([34] ++ js ": " ++ [34], [57362]);
    ([34] ++ js ", " ++ [34], [57363]);
    (js " = ", [57364]);
    (js " === ", [57365]);
    (js " !== ", [57366]);
    (js "public ", [57367]);
    (js "private ", [57368]);
    (js "static ", [57369]);
    (js "throw ", [57370]);
    (js "catch ", [57371]);
    (js "try {", [57372]);
    (js "if (", [57373]);
    (js "for (", [57374]) ].

(** [for (const [pattern, token] of DICTIONARY) result = result.split(pattern).join(token)] *)
Definition applyDictionary (text : str) : str :=
  fold_left (fun result '(pattern, token) => replace_all result pattern token)
            DICTIONARY text.

(** [for (let i = DICTIONARY.length - 1; i >= 0; i--) result = result.split(token).join(pattern)] *)
Definition reverseDictionary (text : str) : str :=
  fold_left (fun result '(pattern, token) => replace_all result token pattern)
            (rev DICTIONARY) text.

(** ** normalizeCode (lines 78-86) *)

(** [.replace(/\r\n/g, '\n')] *)
Fixpoint replace_crlf (s : str) : str :=
  match s with
  | c :: ((d :: r) as t) =>
      if (c =? CR) && (d =? LF) then LF :: replace_crlf r else c :: replace_crlf t
  | _ => s
  end.

(** [.replace(/\n{3,}/g, '\n\n')]: the regular expression is greedy, so a
    maximal run of [n] line feeds is replaced by two when [n >= 3] and kept
    otherwise; [n] counts the line feeds of the current run. *)
Definition cap_run (n : nat) : nat := if (3 <=? n)%nat then 2%nat else n.

Fixpoint collapse_nl (n : nat) (s : str) : str :=
  match s with
  | [] => repeat LF (cap_run n)
  | c :: s' =>
      if c =? LF then collapse_nl (S n) s'
      else repeat LF (cap_run n) ++ c :: collapse_nl O s'
  end.

Definition normalizeCode (code : str) : str :=
  trim (collapse_nl O (join (map trimEnd (split (replace_crlf code) [LF])) [LF])).

(** ** Base64 built-ins ([btoa], [atob]) *)

(** The alphabet of standard base64: sextet [i] to its character. *)
Definition b64char (i : Z) : Z :=
  if i <? 26 then 65 + i
  else if i <? 52 then 97 + (i - 26)
  else if i <? 62 then 48 + (i - 52)
  else if i =? 62 then 43 else 47.

Definition b64index (c : Z) : option Z :=
  if (65 <=? c) && (c <=? 90) then Some (c - 65)
  else if (97 <=? c) && (c <=? 122) then Some (c - 97 + 26)
  else if (48 <=? c) && (c <=? 57) then Some (c - 48 + 52)
  else if c =? 43 then Some 62
  else if c =? 47 then Some 63
  else None.

(** Three bytes give four sextets; a final one or two bytes give two or three. *)
Fixpoint b64_body (b : list Z) : str :=
  match b with
  | x :: y :: z :: r =>
      [b64char (x / 4); b64char ((x mod 4) * 16 + y / 16);
       b64char ((y mod 16) * 4 + z / 64); b64char (z mod 64)] ++ b64_body r
  | [x; y] =>
      [b64char (x / 4); b64char ((x mod 4) * 16 + y / 16); b64char ((y mod 16) * 4)]
  | [x] => [b64char (x / 4); b64char ((x mod 4) * 16)]
  | [] => []
  end.

Definition b64_pad (n : nat) : nat :=
  match (n mod 3)%nat with 1%nat => 2%nat | 2%nat => 1%nat | _ => 0%nat end.

(** [btoa] of the binary string whose code units are the bytes [b]. *)
Definition btoa (b : list Z) : str := b64_body b ++ repeat EQ (b64_pad (List.length b)).

(** ASCII whitespace of the forgiving-base64 decoder. *)
Definition is_ascii_ws (c : Z) : bool :=
  (c =? 9) || (c =? 10) || (c =? 12) || (c =? 13) || (c =? 32).

Fixpoint map_option {A B} (f : A -> option B) (l : list A) : option (list B) :=
  match l with
  | [] => Some []
  | x :: l' =>
      match f x with
      | None => None
      | Some y => match map_option f l' with None => None | Some ys => Some (y :: ys) end
      end
  end.

(** Sextets back to bytes; the bits left over at the end are dropped. *)
Fixpoint b64_decode (s : list Z) : list Z :=
  match s with
  | a :: b :: c :: d :: r =>
      [a * 4 + b / 16; (b mod 16) * 16 + c / 4; (c mod 4) * 64 + d] ++ b64_decode r
  | [a; b; c] => [a * 4 + b / 16; (b mod 16) * 16 + c / 4]
  | [a; b] => [a * 4 + b / 16]
  | _ => []
  end.

(** One or two [=] at the end of a string whose length is a multiple of 4
    are removed. *)
Definition strip_padding (s : str) : str :=
  if (List.length s mod 4 =? 0)%nat then
    match rev s with
    | a :: b :: r => if (a =? EQ) && (b =? EQ) then rev r
                     else if a =? EQ then rev (b :: r) else s
    | [a] => if a =? EQ then [] else s
    | [] => s
    end
  else s.

(** [atob], the forgiving-base64 decode: [None] is the [InvalidCharacterError]
    it throws. *)
Definition atob (s : str) : option (list Z) :=
  let s1 := filter (fun c => negb (is_ascii_ws c)) s in
  let s2 := strip_padding s1 in
  if (List.length s2 mod 4 =? 1)%nat then None
  else match map_option b64index s2 with
       | None => None
       | Some sextets => Some (b64_decode sextets)
       end.

(** [s.replace(/a/g, b)] for one code unit. *)
Definition replace_char (a b : Z) (s : str) : str :=
  map (fun c => if c =? a then b else c) s.

(** ** toUrlSafeBase64 / fromUrlSafeBase64 (lines 91-117) *)

(** [btoa(binary).replace(/\+/g, '-').replace(/\//g, '_').replace(/=+$/, '')];
    [binary] has the bytes of [data] as its code units. *)
Definition toUrlSafeBase64 (data : list Z) : str :=
  rev (drop_while (fun c => c =? EQ)
         (rev (replace_char 47 95 (replace_char 43 45 (btoa data))))).

(** [while (base64.length % 4) base64 += '='] *)
Definition pad4 (s : str) : str :=
  s ++ repeat EQ ((4 - List.length s mod 4) mod 4).

(** [None] when [atob] throws. *)
Definition fromUrlSafeBase64 (s : str) : option (list Z) :=
  atob (pad4 (replace_char 95 47 (replace_char 45 43 s))).

(** ** The fflate library *)

(** [compressSync] is fflate's [gzipSync], whose gzip header records the
    time of the call in seconds ([Math.floor(Date.now() / 1000)]): a value
    [F : Fflate] is the library as it behaves during one call, and two calls
    of [encode] at different times are calls with two instances.  Every
    statement below about [encode] followed by [decode] holds for every
    instance meeting [fflate_ok]. *)
Record Fflate := {
  strToU8 : str -> list Z;
  strFromU8 : list Z -> str;
  compressSync : list Z -> list Z;          (* at level 9 *)
  decompressSync : list Z -> option (list Z) (* [None]: it throws *)
}.

Definition is_byte (z : Z) : bool := (0 <=? z) && (z <? 256).
Definition is_high (u : Z) : bool := (55296 <=? u) && (u <=? 56319).
Definition is_low (u : Z) : bool := (56320 <=? u) && (u <=? 57343).
Definition is_unit (u : Z) : bool := (0 <=? u) && (u <? 65536).

(** Well-formed UTF-16: every high surrogate is followed by a low one and
    every low surrogate follows a high one. *)
Fixpoint wf16 (s : str) : bool :=
  match s with
  | [] => true
  | c :: s' =>
      is_unit c &&
      (if is_high c then
         match s' with d :: s'' => is_low d && wf16 s'' | [] => false end
       else negb (is_low c) && wf16 s')
  end.

(** What fflate provides: [strToU8]/[strFromU8] are UTF-8 encoding and
    decoding (lossless on well-formed UTF-16; [strFromU8] decodes with
    [TextDecoder], which also drops a leading U+FEFF, and no payload of
    [encode] starts with one: [trim] removes it, a language starts with a
    letter and the dictionary tokens are U+E000-U+E01E), the compressed
    stream is a non-empty array of bytes, and [decompressSync] inverts
    [compressSync]. *)
Record fflate_ok (F : Fflate) : Prop := {
  strToU8_bytes : forall s, forallb is_byte (strToU8 F s) = true;
  strFromU8_strToU8 : forall s, wf16 s = true -> strFromU8 F (strToU8 F s) = s;
  compressSync_bytes :
    forall b, forallb is_byte b = true -> forallb is_byte (compressSync F b) = true;
  compressSync_nonempty : forall b, compressSync F b <> [];
  decompressSync_compressSync :
    forall b, forallb is_byte b = true -> decompressSync F (compressSync F b) = Some b
}.

(** ** encode / decode (lines 123-169) *)

Record SnippetData := { code : str; lang : option str }.

(** [lang ? `${lang}|${normalized}` : normalized]; the empty string is falsy. *)
Definition payload_of (normalized : str) (lang : option str) : str :=
  match lang with
  | Some ((_ :: _) as l) => l ++ [PIPE] ++ normalized
  | _ => normalized
  end.

Definition encode (F : Fflate) (code : str) (lang : option str) : str :=
  let normalized := normalizeCode code in
  let payload := payload_of normalized lang in
  let dictCompressed := applyDictionary payload in
  let compressed := compressSync F (strToU8 F dictCompressed) in
  toUrlSafeBase64 compressed.

(** [String.prototype.indexOf]. *)
Fixpoint indexOf (s p : str) : Z :=
  if prefixb p s then 0
  else match s with
       | [] => -1
       | _ :: s' => let i := indexOf s' p in if i <? 0 then -1 else i + 1
       end.

Definition is_alpha (c : Z) : bool :=
  ((65 <=? c) && (c <=? 90)) || ((97 <=? c) && (c <=? 122)).
Definition is_digit (c : Z) : bool := (48 <=? c) && (c <=? 57).

(** [/^[a-zA-Z][a-zA-Z0-9-]*$/.test(s)] *)
Definition lang_pattern (s : str) : bool :=
  match s with
  | c :: r => is_alpha c && forallb (fun d => is_alpha d || is_digit d || (d =? 45)) r
  | [] => false
  end.

Definition decode (F : Fflate) (hash : str) : option SnippetData :=
  match hash with
  | [] => None
  | _ =>
    match fromUrlSafeBase64 hash with
    | None => None
    | Some compressed =>
      match decompressSync F compressed with
      | None => None
      | Some bytes =>
        let decompressed := strFromU8 F bytes in
        match decompressed with
        | [] => None
        | _ =>
          let restored := reverseDictionary decompressed in
          let pipeIndex := indexOf restored [PIPE] in
          if (0 <? pipeIndex) && (pipeIndex <? 20) then
            let possibleLang := firstn (Z.to_nat pipeIndex) restored in
            if lang_pattern possibleLang then
              Some {| lang := Some possibleLang;
                      code := skipn (Z.to_nat (pipeIndex + 1)) restored |}
            else Some {| code := restored; lang := None |}
          else Some {| code := restored; lang := None |}
        end
      end
    end
  end.

(** The last step of [decode] (lines 153-165) on the restored text. *)
Definition decode_tag (restored : str) : SnippetData :=
  let pipeIndex := indexOf restored [PIPE] in
  if (0 <? pipeIndex) && (pipeIndex <? 20) then
    let possibleLang := firstn (Z.to_nat pipeIndex) restored in
    if lang_pattern possibleLang then
      {| lang := Some possibleLang; code := skipn (Z.to_nat (pipeIndex + 1)) restored |}
    else {| code := restored; lang := None |}
  else {| code := restored; lang := None |}.

(** ** updateUrlHash (lines 171-202) *)

Definition URL_WARNING_LIMIT : Z := 2000.
Definition URL_ERROR_LIMIT : Z := 8000.

Record UrlStatus := { length : Z; isWarning : bool; isError : bool }.

(** The object literal [status] built from [length]. *)
Definition url_status (length : Z) : UrlStatus :=
  {| length := length;
     isWarning := (URL_WARNING_LIMIT <? length) && (length <=? URL_ERROR_LIMIT);
     isError := URL_ERROR_LIMIT <? length |}.

(** The page: [window.location.origin], [.pathname], [.hash] and the
    entries of the session history before the current one. *)
Record Window := { origin : str; pathname : str; hash : str; back : list str }.

(** [history.replaceState(null, '', url)] with [url] a fragment [#...]:
    the current entry's fragment becomes [url], no entry is added. *)
Definition replaceState (w : Window) (url : str) : Window :=
  {| origin := origin w; pathname := pathname w; hash := url; back := back w |}.

(** [history.pushState(null, '', url)], for comparison: the current entry
    is kept behind the new one. *)
Definition pushState (w : Window) (url : str) : Window :=
  {| origin := origin w; pathname := pathname w; hash := url;
     back := (origin w ++ pathname w ++ hash w) :: back w |}.

Definition updateUrlHash (F : Fflate) (code : str) (lang : option str) (w : Window)
  : UrlStatus * Window :=
  let encoded := encode F code lang in
  let fullUrl := origin w ++ pathname w ++ [HASH] ++ encoded in
  let length := Z.of_nat (List.length fullUrl) in
  let status := url_status length in
  if negb (isError status) then (status, replaceState w ([HASH] ++ encoded))
  else (status, w).

(** [readUrlHash]: [window.location.hash.slice(1)] given to [decode]. *)
Definition readUrlHash (F : Fflate) (w : Window) : option SnippetData :=
  decode F (skipn 1 (hash w)).

(** ** A sample library meeting [fflate_ok]

    Used only to run the theorems at concrete inputs: code units are stored
    as two bytes each, and the "compressed" stream is the input behind a
    one-byte header. *)
Definition sample_toU8 (s : str) : list Z :=
  flat_map (fun u => [(u / 256) mod 256; u mod 256]) s.

Fixpoint sample_fromU8 (b : list Z) : str :=
  match b with
  | x :: y :: r => (x * 256 + y) :: sample_fromU8 r
  | [_] => [65533]
  | [] => []
  end.

Definition sample_decompress (b : list Z) : option (list Z) :=
  match b with
  | h :: r => if h =? 120 then Some r else None
  | [] => None
  end.

Definition Sample : Fflate :=
  {| strToU8 := sample_toU8; strFromU8 := sample_fromU8;
     compressSync := fun b => 120 :: b; decompressSync := sample_decompress |}.

(** ** Notions of the specification *)

(** A language identifier: [^[A-Za-z][A-Za-z0-9-]{0,18}$]. *)
Definition valid_lang (l : str) : bool :=
  match l with
  | c :: r =>
      is_alpha c
      && forallb (fun d => is_alpha d || is_digit d || (d =? 45)) r
      && (List.length r <=? 18)%nat
  | [] => false
  end.

(** The code points U+E000-U+E01E that the dictionary reserves as tokens. *)
Definition reserved (u : Z) : bool := (57344 <=? u) && (u <=? 57374).
Definition no_reserved (s : str) : bool := forallb (fun u => negb (reserved u)) s.

(** The text before the first [|] and the text after it. *)
Fixpoint first_pipe (r : str) : option (str * str) :=
  match r with
  | [] => None
  | c :: r' =>
      if c =? PIPE then Some ([], r')
      else match first_pipe r' with
           | Some (pre, post) => Some (c :: pre, post)
           | None => None
           end
  end.

(** The language split described for decode: split at the first [|] when it
    is at index 1..19 and the text before it matches
    [/^[a-zA-Z][a-zA-Z0-9-]*$/], else the whole text is code. *)
Definition tag_split (r : str) : SnippetData :=
  match first_pipe r with
  | Some (pre, post) =>
      if (1 <=? List.length pre)%nat && (List.length pre <=? 19)%nat && lang_pattern pre
      then {| lang := Some pre; code := post |}
      else {| lang := None; code := r |}
  | None => {| lang := None; code := r |}
  end.

(** A code unit that is not a surrogate. *)
Definition plain (u : Z) : bool := is_unit u && negb (is_high u) && negb (is_low u).

(** The characters of the base64url alphabet. *)
Definition url_char (c : Z) : bool :=
  is_alpha c || is_digit c || (c =? 45) || (c =? 95).

(** The characters [decode] can get past [atob] with: the base64url and base64
    alphabets, [=] and ASCII whitespace. *)
Definition atob_char (c : Z) : bool :=
  url_char c || (c =? 43) || (c =? 47) || (c =? EQ) || is_ascii_ws c.

Fixpoint nodupb (l : list Z) : bool :=
  match l with
  | [] => true
  | x :: r => negb (existsb (Z.eqb x) r) && nodupb r
  end.

(** Adjacent code units [a], [b] never satisfy [bad a b]. *)
Fixpoint adj_ok (bad : Z -> Z -> bool) (s : str) : bool :=
  match s with
  | a :: ((b :: _) as t) => negb (bad a b) && adj_ok bad t
  | _ => true
  end.

(** Whitespace other than a line feed right before a line feed. *)
Definition ws_before_lf (a b : Z) : bool := is_ws a && negb (a =? LF) && (b =? LF).

(** Three line feeds in a row. *)
Fixpoint no3lf (s : str) : bool :=
  match s with
  | a :: ((b :: c :: _) as t) => negb ((a =? LF) && (b =? LF) && (c =? LF)) && no3lf t
  | _ => true
  end.

Definition ends_not_ws (s : str) : bool :=
  match s with
  | [] => true
  | c :: _ => negb (is_ws c) && negb (is_ws (last s 0))
  end.



(** ** The page script (src/src/main.ts, lines 450-853)

    The module-level variables of the page ([isReadOnly], [currentLanguage],
    [lastTapTime], [editor]), the window, and the DOM state the script
    writes: the mode indicator, the [read-only] class of the editor
    container, the status class of the URL indicator and the warning toast.
    The language selector, the loading screen, and the texts, widths and
    titles of the indicators are not modelled. *)

(** [a === b] on strings. *)
Fixpoint str_eqb (a b : str) : bool :=
  match a, b with
  | [], [] => true
  | x :: a', y :: b' => (x =? y) && str_eqb a' b'
  | _, _ => false
  end.

(** [VSCODE_TO_MONACO_MAP] (lines 450-505). *)
Definition VSCODE_TO_MONACO_MAP : list (str * str) :=
  [ (js "js", js "javascript"); (js "ts", js "typescript"); (js "py", js "python");
    (js "md", js "markdown"); (js "cs", js "csharp"); (js "cpp", js "cpp");
    (js "rb", js "ruby"); (js "rs", js "rust"); (js "jl", js "julia");
    (js "hs", js "haskell"); (js "kt", js "kotlin"); (js "ex", js "elixir");
    (js "erl", js "erlang"); (js "sh", js "shell"); (js "ml", js "objective-c");
    (js "mm", js "objective-c"); (js "ps1", js "powershell"); (js "f90", js "fortran");
    (js "cbl", js "cobol"); (js "pm", js "perl"); (js "tex", js "latex");
    (js "scala", js "scala"); (js "pas", js "pascal"); (js "ini", js "ini");
    (js "sql", js "sql"); (js "asm", js "asm"); (js "matlab", js "matlab");
    (js "swift", js "swift"); (js "cmake", js "cmake"); (js "vba", js "vb");
    (js "html", js "html"); (js "clj", js "clojure"); (js "dart", js "dart");
    (js "xml", js "xml"); (js "csv", js "csv"); (js "lua", js "lua");
    (js "prolog", js "prolog"); (js "coffee", js "coffeescript");
    (js "groovy", js "groovy"); (js "json", js "json"); (js "java", js "java");
    (js "lisp", js "lisp"); (js "c", js "c"); (js "makefile", js "makefile");
    (js "v", js "verilog"); (js "r", js "r"); (js "php", js "php");
    (js "yaml", js "yaml"); (js "css", js "css"); (js "bat", js "bat");
    (js "toml", js "toml"); (js "go", js "go"); (js "dockerfile", js "dockerfile") ].

(** [obj[key]] on an object literal with string values; the keys inherited
    from [Object.prototype] give functions or objects, which no language
    list includes, so they act as a missing key here. *)
Fixpoint lookup (key : str) (m : list (str * str)) : option str :=
  match m with
  | [] => None
  | (k, v) :: m' => if str_eqb k key then Some v else lookup key m'
  end.

(** [xs.includes(x)] *)
Definition includes (xs : list str) (x : str) : bool := existsb (str_eqb x) xs.

(** [getMonacoLang] (lines 527-545); [availableLangs] is the list of the
    language ids loaded in Monaco ([monaco.languages.getLanguages()]). *)
Definition getMonacoLang (availableLangs : list str) (vsCodeId : str) : str :=
  let fallback := if includes availableLangs vsCodeId then vsCodeId else js "plaintext" in
  match lookup vsCodeId VSCODE_TO_MONACO_MAP with
  | Some ((_ :: _) as mapped) => if includes availableLangs mapped then mapped else fallback
  | _ => fallback
  end.

(** [detectLanguageFromContent] (lines 548-555); [runModel] gives the
    [languageId]s of the guesslang result, best first. *)
Definition detectLanguageFromContent (runModel : str -> list str)
  (availableLangs : list str) (code : str) : str :=
  match runModel code with
  | languageId :: _ => getMonacoLang availableLangs languageId
  | [] => js "plaintext"
  end.

(** The Monaco editor: its value, model language, [readOnly] option and
    whether it has the focus. *)
Record Editor := { value : str; language : str; readOnly : bool; focused : bool }.

Definition editor_updateOptions (ro : bool) (e : Editor) : Editor :=
  {| value := value e; language := language e; readOnly := ro; focused := focused e |}.
Definition editor_focus (e : Editor) : Editor :=
  {| value := value e; language := language e; readOnly := readOnly e; focused := true |}.
Definition setModelLanguage (l : str) (e : Editor) : Editor :=
  {| value := value e; language := l; readOnly := readOnly e; focused := focused e |}.

(** The status class of [#url-status]. *)
Inductive UrlStatusClass := status_ok | status_warning | status_error.

Record Page := {
  win : Window;
  isReadOnly : bool;
  currentLanguage : str;
  lastTapTime : Z;
  editor : option Editor;               (* [undefined] before [init] *)
  modeIndicator : option bool;          (* [#mode-indicator]: shows read-only *)
  containerReadOnly : option bool;      (* [#editor-container]: class [read-only] *)
  urlStatus : option UrlStatusClass;    (* [#url-status] with its fill and text *)
  urlWarning : option bool              (* [#url-warning]: class [error] (else [warning]) *)
}.

Definition set_win (w : Window) (p : Page) : Page :=
  Build_Page w (isReadOnly p) (currentLanguage p) (lastTapTime p) (editor p)
    (modeIndicator p) (containerReadOnly p) (urlStatus p) (urlWarning p).
Definition set_isReadOnly (b : bool) (p : Page) : Page :=
  Build_Page (win p) b (currentLanguage p) (lastTapTime p) (editor p)
    (modeIndicator p) (containerReadOnly p) (urlStatus p) (urlWarning p).
Definition set_currentLanguage (l : str) (p : Page) : Page :=
  Build_Page (win p) (isReadOnly p) l (lastTapTime p) (editor p)
    (modeIndicator p) (containerReadOnly p) (urlStatus p) (urlWarning p).
Definition set_lastTapTime (t : Z) (p : Page) : Page :=
  Build_Page (win p) (isReadOnly p) (currentLanguage p) t (editor p)
    (modeIndicator p) (containerReadOnly p) (urlStatus p) (urlWarning p).
Definition set_editor (e : option Editor) (p : Page) : Page :=
  Build_Page (win p) (isReadOnly p) (currentLanguage p) (lastTapTime p) e
    (modeIndicator p) (containerReadOnly p) (urlStatus p) (urlWarning p).
Definition set_urlStatus (c : option UrlStatusClass) (p : Page) : Page :=
  Build_Page (win p) (isReadOnly p) (currentLanguage p) (lastTapTime p) (editor p)
    (modeIndicator p) (containerReadOnly p) c (urlWarning p).
Definition set_urlWarning (t : option bool) (p : Page) : Page :=
  Build_Page (win p) (isReadOnly p) (currentLanguage p) (lastTapTime p) (editor p)
    (modeIndicator p) (containerReadOnly p) (urlStatus p) t.

(** A call either returns or throws; the page keeps what was written before
    the throw. *)
Inductive Outcome := Normal (p : Page) | Thrown (p : Page).

Definition page_of (o : Outcome) : Page := match o with Normal p | Thrown p => p end.

Definition obind (o : Outcome) (f : Page -> Outcome) : Outcome :=
  match o with Normal p => f p | Thrown p => Thrown p end.

(** [editor.m(...)]: a method call on [editor], which throws a [TypeError]
    while [editor] is [undefined]. *)
Definition editor_call (f : Editor -> Editor) (p : Page) : Outcome :=
  match editor p with
  | Some e => Normal (set_editor (Some (f e)) p)
  | None => Thrown p
  end.

(** [updateModeIndicator] (lines 618-631). *)
Definition updateModeIndicator (p : Page) : Page :=
  Build_Page (win p) (isReadOnly p) (currentLanguage p) (lastTapTime p) (editor p)
    (option_map (fun _ => isReadOnly p) (modeIndicator p))
    (option_map (fun _ => isReadOnly p) (containerReadOnly p))
    (urlStatus p) (urlWarning p).

(** [setReadOnly] (lines 633-640). *)
Definition setReadOnly (readonly : bool) (p : Page) : Outcome :=
  obind (editor_call (editor_updateOptions readonly) (set_isReadOnly readonly p))
        (fun p1 => Normal (updateModeIndicator p1)).

(** [handleTap] (lines 642-652); [now] is [Date.now()]. *)
Definition handleTap (now : Z) (p : Page) : Outcome :=
  obind (if (now - lastTapTime p <? 300) && isReadOnly p
         then obind (setReadOnly false p) (editor_call editor_focus)
         else Normal p)
        (fun p1 => Normal (set_lastTapTime now p1)).

(** A sequence of taps at the given times. *)
Definition taps (p : Page) (times : list Z) : Outcome :=
  fold_left (fun o t => obind o (handleTap t)) times (Normal p).

(** [debounce(fn, delay)] (lines 654-660): each call clears the pending
    timer and sets a new one [delay] later.  Given the times of the calls,
    in order, [debounce_runs] gives the times at which [fn] runs; [timer] is
    the time the pending timer is due, and a timer due no later than a call
    has run before it. *)
Fixpoint debounce_go (delay : Z) (timer : option Z) (calls : list Z) : list Z :=
  match calls with
  | [] => match timer with Some d => [d] | None => [] end
  | t :: calls' =>
      match timer with Some d => if d <=? t then [d] else [] | None => [] end
      ++ debounce_go delay (Some (t + delay)) calls'
  end.

Definition debounce_runs (delay : Z) (calls : list Z) : list Z :=
  debounce_go delay None calls.

(** [updateUrlStatus] (lines 665-699): the status class of the indicator,
    when the indicator, its fill and its text exist. *)
Definition updateUrlStatus (status : UrlStatus) (p : Page) : Page :=
  match urlStatus p with
  | None => p
  | Some _ =>
      set_urlStatus
        (Some (if isError status then status_error
               else if isWarning status then status_warning else status_ok)) p
  end.

(** [showUrlWarning] (lines 701-735). *)
Definition showUrlWarning (status : UrlStatus) (p : Page) : Page :=
  let p1 := updateUrlStatus status p in
  if negb (isWarning status) && negb (isError status) then set_urlWarning None p1
  else set_urlWarning (Some (isError status)) p1.

Section PageScript.

Variable F : Fflate.
Variable runModel : str -> list str.
Variable availableLangs : list str.

Let detect := detectLanguageFromContent runModel availableLangs.

(** The body of [handleCodeChange] (lines 737-754), run when its debounce
    timer fires; the awaited detection is taken to complete before any other
    event. *)
Definition handleCodeChange (p : Page) : Page :=
  match editor p with
  | Some e =>
      if negb (isReadOnly p) then
        let code := value e in
        let detected := detect code in
        let p1 := if negb (str_eqb detected (currentLanguage p))
                  then set_editor (Some (setModelLanguage detected e))
                         (set_currentLanguage detected p)
                  else p in
        let r := updateUrlHash F code (Some (currentLanguage p1)) (win p1) in
        showUrlWarning (fst r) (set_win (snd r) p1)
      else p
  | None => p
  end.

(** The [change] listener of the language selector (lines 585-596), given
    the selected value. *)
Definition onLanguageChange (newLang : str) (p : Page) : Page :=
  if negb (str_eqb newLang (currentLanguage p)) then
    let p1 := set_currentLanguage newLang p in
    match editor p1 with
    | Some e =>
        let p2 := set_editor (Some (setModelLanguage newLang e)) p1 in
        set_win (snd (updateUrlHash F (value e) (Some (currentLanguage p2)) (win p2))) p2
    | None => p1
    end
  else p.

(** [init] (lines 756-845): the state it leaves the page in. *)
Definition init (p : Page) : Page :=
  match containerReadOnly p with
  | None => p
  | Some _ =>
      let urlData := readUrlHash F (win p) in
      let initialCode := match urlData with Some d => code d | None => [] end in
      let ro := match initialCode with [] => false | _ => true end in
      let lang0 :=
        match urlData with
        | Some {| lang := Some ((_ :: _) as l) |} => l
        | _ => match initialCode with [] => js "plaintext" | _ => detect initialCode end
        end in
      let e := {| value := initialCode; language := lang0; readOnly := ro;
                  focused := false |} in
      let p1 := updateModeIndicator
                  (set_editor (Some e) (set_currentLanguage lang0 (set_isReadOnly ro p))) in
      if negb ro then set_editor (Some (editor_focus e)) p1 else p1
  end.

End PageScript.

(** ** Auxiliary definitions of the proofs *)

Definition fwd_step (result : str) (pt : str * str) : str :=
  let '(pattern, token) := pt in replace_all result pattern token.
Definition rev_step (result : str) (pt : str * str) : str :=
  let '(pattern, token) := pt in replace_all result token pattern.

(** Every token is one code unit, every pattern is non-empty, and no two
    entries share a token. *)
Definition dict_shape (D : list (str * str)) : Prop :=
  (forall pt, In pt D -> fst pt <> [] /\ snd pt = [hd 0 (snd pt)])
  /\ NoDup (map (fun pt => hd 0 (snd pt)) D).

(** The sextets that [btoa] writes. *)
Fixpoint b64_sextets (b : list Z) : list Z :=
  match b with
  | x :: y :: z :: r =>
      [x / 4; (x mod 4) * 16 + y / 16; (y mod 16) * 4 + z / 64; z mod 64] ++ b64_sextets r
  | [x; y] => [x / 4; (x mod 4) * 16 + y / 16; (y mod 16) * 4]
  | [x] => [x / 4; (x mod 4) * 16]
  | [] => []
  end.

Definition b64_std (c : Z) : bool := is_alpha c || is_digit c || (c =? 43) || (c =? 47).

Definition last_not_ws (s : str) : bool :=
  match s with [] => true | _ => negb (is_ws (last s 0)) end.

(** ** The pattern-based language detector (src/src/compression.ts, lines 309-369)

    The regular expressions are written out as tests on the code units.
    Only ASCII letters take part in the case-insensitive ones, and a
    non-ASCII code unit never folds to an ASCII one in a non-unicode
    regular expression. *)

Module RegexDetect.

Definition lower_ascii (c : Z) : Z := if (65 <=? c) && (c <=? 90) then c + 32 else c.

(** [/^p/i.test(x)] for a literal [p]. *)
Fixpoint prefixb_i (p x : str) : bool :=
  match p, x with
  | [], _ => true
  | c :: p', d :: x' => (lower_ascii c =? lower_ascii d) && prefixb_i p' x'
  | _ :: _, [] => false
  end.

(** [/p/.test(x)] for a literal [p]: an occurrence anywhere. *)
Fixpoint infixb (p x : str) : bool :=
  prefixb p x || match x with [] => false | _ :: x' => infixb p x' end.

(** [/^(p1|p2|...)/.test(x)] for literals. *)
Definition starts_with_any (ps : list str) (x : str) : bool := existsb (fun p => prefixb p x) ps.

Definition is_word_char (c : Z) : bool := is_alpha c || is_digit c || (c =? 95).

(** The first code unit after a maximal run of whitespace ([\s*]) is [c]. *)
Definition ws_then (c : Z) (x : str) : bool :=
  match drop_while is_ws x with d :: _ => d =? c | [] => false end.

(** [/^<!DOCTYPE|^<html|^<head|^<body/i] *)
Definition re_html (t : str) : bool :=
  prefixb_i (js "<!DOCTYPE") t || prefixb_i (js "<html") t || prefixb_i (js "<head") t
  || prefixb_i (js "<body") t.

(** [/^[\[\{]/] and [/[\]\}]$/] *)
Definition re_json_open (t : str) : bool :=
  match t with c :: _ => (c =? 91) || (c =? 123) | [] => false end.
Definition re_json_close (t : str) : bool :=
  match rev t with c :: _ => (c =? 93) || (c =? 125) | [] => false end.

(** [/^[a-zA-Z_][a-zA-Z0-9_-]*:\s*/]: [\s*] also matches nothing, and [:]
    is not in the repeated class, so the run of the class is followed by
    [:]. *)
Definition re_yaml (l : str) : bool :=
  match l with
  | c :: r =>
      (is_alpha c || (c =? 95)) &&
      match drop_while (fun d => is_word_char d || (d =? 45)) r with
      | d :: _ => d =? 58
      | [] => false
      end
  | [] => false
  end.

Definition python_prefixes : list str :=
  [js "import "; js "from "; js "def "; js "class "; js "if __name__"; js "async def "].

(** [/:\s*(string|number|boolean|void|Promise<|Array<)/]: the words start
    with a non-whitespace character, so only the maximal run of [\s*] can
    be followed by one of them. *)
Fixpoint re_ts_annotation (t : str) : bool :=
  match t with
  | [] => false
  | c :: t' =>
      ((c =? 58) &&
       starts_with_any [js "string"; js "number"; js "boolean"; js "void"; js "Promise<";
                        js "Array<"] (drop_while is_ws t'))
      || re_ts_annotation t'
  end.

(** [/^(\.|#|@media|body|html)\s*\{/] *)
Definition re_css (t : str) : bool :=
  existsb (fun a => prefixb a t && ws_then 123 (skipn (List.length a) t))
    [js "."; js "#"; js "@media"; js "body"; js "html"].

(** [/^\$\s/] *)
Definition re_shell_prompt (l : str) : bool :=
  match l with 36 :: d :: _ => is_ws d | _ => false end.

(** [/^(SELECT|INSERT|UPDATE|DELETE|CREATE|ALTER)\b/i]: the keyword ends in a
    word character, so [\b] holds when no word character follows. *)
Definition re_sql (t : str) : bool :=
  existsb (fun k => prefixb_i k t &&
                    match skipn (List.length k) t with
                    | d :: _ => negb (is_word_char d)
                    | [] => true
                    end)
    [js "SELECT"; js "INSERT"; js "UPDATE"; js "DELETE"; js "CREATE"; js "ALTER"].

Fixpoint leading_hashes (t : str) : nat :=
  match t with c :: t' => if c =? 35 then S (leading_hashes t') else O | [] => O end.

(** [/^#{1,6}\s/]: after [k] signs with [k] below the number [m] of leading
    signs comes a [#], so the match needs [1 <= m <= 6] and whitespace after
    them. *)
Definition re_md_heading (t : str) : bool :=
  let m := leading_hashes t in
  (1 <=? m)%nat && (m <=? 6)%nat &&
  match nth_error t m with Some d => is_ws d | None => false end.

(** [/^#include\s*[<Q]/], [Q] being the double quote (code unit 34). *)
Definition re_include (t : str) : bool :=
  prefixb (js "#include") t &&
  match drop_while is_ws (skipn 8 t) with d :: _ => (d =? 60) || (d =? 34) | [] => false end.

(** [detectLanguageFromContent]; [JSON_parse_ok t] holds when
    [JSON.parse(t)] does not throw. *)
Definition detectLanguageFromContent (JSON_parse_ok : str -> bool) (code : str) : str :=
  let trimmed := trim code in
  let firstLine := hd [] (split trimmed [LF]) in
  if re_html trimmed then js "html"
  else if re_json_open trimmed && re_json_close trimmed && JSON_parse_ok trimmed
  then js "json"
  else if re_yaml firstLine && negb (existsb (Z.eqb 123) trimmed)
          && negb (existsb (Z.eqb 59) trimmed) then js "yaml"
  else if starts_with_any python_prefixes trimmed then js "python"
  else if re_ts_annotation trimmed
          || starts_with_any [js "interface "; js "type "; js "enum "] trimmed
  then js "typescript"
  else if starts_with_any [js "import "; js "export "; js "const "; js "let "; js "var ";
                           js "function "; js "=>"; js "class "] trimmed
          || infixb (js "console.") trimmed || infixb (js "require(") trimmed
          || infixb (js "module.exports") trimmed
  then js "javascript"
  else if re_css trimmed then js "css"
  else if prefixb (js "#!") trimmed || re_shell_prompt firstLine then js "shell"
  else if re_sql trimmed then js "sql"
  else if re_md_heading trimmed || prefixb (js "**") trimmed then js "markdown"
  else if re_include trimmed
  then (if infixb (js "iostream") trimmed then js "cpp" else js "c")
  else if starts_with_any [js "package "; js "func "; js "import ("] trimmed then js "go"
  else if starts_with_any [js "fn "; js "pub fn "; js "struct "; js "impl "] trimmed
  then js "rust"
  else if starts_with_any [js "class "; js "interface "; js "public class ";
                           js "public interface "; js "private class ";
                           js "private interface "] trimmed
  then js "java"
  else js "plaintext".

End RegexDetect.

(** A page whose editor's [readOnly] option, mode indicator and container
    class agree with [isReadOnly]. *)
Definition in_sync (p : Page) : Prop :=
  (exists e, editor p = Some e /\ readOnly e = isReadOnly p) /\
  (forall b, modeIndicator p = Some b -> b = isReadOnly p) /\
  (forall b, containerReadOnly p = Some b -> b = isReadOnly p).

(** Calls each less than [delay] after the one before. *)
Fixpoint close_calls (delay t : Z) (ts : list Z) : bool :=
  match ts with
  | [] => true
  | t' :: ts' => (t' <? t + delay) && close_calls delay t' ts'
  end.

(** Taps each at least 300 ms after the one before, the first at least
    300 ms after [last]. *)
Fixpoint spaced_taps (last : Z) (times : list Z) : bool :=
  match times with
  | [] => true
  | t :: ts => (300 <=? t - last) && spaced_taps t ts
  end.

(** The page when the script starts, in window [w]: the module-level
    initial values ([isReadOnly = false], [currentLanguage = 'plaintext'],
    [lastTapTime = 0], [editor] undefined), with the mode indicator, the
    editor container and the URL status indicator present and no warning
    toast. *)
Definition fresh_page (w : Window) : Page :=
  {| win := w; isReadOnly := false; currentLanguage := js "plaintext"; lastTapTime := 0;
     editor := None; modeIndicator := Some false; containerReadOnly := Some false;
     urlStatus := Some status_ok; urlWarning := None |}.

(** A window and a page used to run the theorems on the page at concrete
    inputs: the editor holds [x] and is read-only when [ro]. *)
Definition sample_window : Window :=
  {| origin := js "https://snippt.link"; pathname := js "/"; hash := []; back := [] |}.

Definition sample_page (ro : bool) : Page :=
  {| win := sample_window; isReadOnly := ro; currentLanguage := js "plaintext";
     lastTapTime := 0;
     editor := Some {| value := js "x"; language := js "plaintext"; readOnly := ro;
                       focused := false |};
     modeIndicator := Some ro; containerReadOnly := Some ro;
     urlStatus := Some status_ok; urlWarning := None |}.

(** ** Proofs *)

Lemma split_go_nonempty sep x k cur : split_go sep x k cur <> [].
Proof.
  revert k cur; induction x as [|c x IH]; intros k cur; simpl; [discriminate|].
  destruct k; [destruct (prefixb sep (c :: x)); [discriminate|]|]; apply IH.
Qed.

Lemma prefixb_app p r : prefixb p (p ++ r) = true.
Proof. induction p; simpl; [reflexivity|]. rewrite Z.eqb_refl, IHp. reflexivity. Qed.

Lemma prefixb_true p x : prefixb p x = true -> exists r, x = p ++ r.
Proof.
  revert x; induction p as [|c p IH]; intros x H; [exists x; reflexivity|].
  destruct x as [|d x]; simpl in H; [discriminate|].
  apply andb_true_iff in H as [Hc H]. apply Z.eqb_eq in Hc; subst.
  destruct (IH x H) as [r ->]. exists r. reflexivity.
Qed.

Lemma split_go_skip sep q r cur :
  split_go sep (q ++ r) (List.length q) cur = split_go sep r O cur.
Proof. induction q; simpl; auto. Qed.

Lemma join_cons q ps sep : ps <> [] -> join (q :: ps) sep = q ++ sep ++ join ps sep.
Proof. destruct ps; [congruence|reflexivity]. Qed.

Lemma join_split_go sep : sep <> [] ->
  forall x cur, join (split_go sep x O cur) sep = rev cur ++ x.
Proof.
  intros Hsep x. remember (List.length x) as n eqn:Hn.
  revert x Hn; induction n as [n IH] using (well_founded_induction lt_wf).
  intros [|c x] Hn cur; simpl; [now rewrite app_nil_r|].
  destruct (prefixb sep (c :: x)) eqn:Hp.
  - destruct (prefixb_true _ _ Hp) as [r Hr].
    destruct sep as [|c' sep']; [congruence|].
    injection Hr as -> ->. simpl pred.
    rewrite split_go_skip, join_cons by apply split_go_nonempty.
    rewrite (IH (List.length r)) by (subst; simpl; try rewrite length_app; lia).
    reflexivity.
  - rewrite (IH (List.length x)) by (subst; simpl; lia).
    simpl. rewrite <- app_assoc. reflexivity.
Qed.

Lemma join_split x sep : sep <> [] -> join (split x sep) sep = x.
Proof. intros H. unfold split. rewrite join_split_go by exact H. reflexivity. Qed.

Lemma split_go_incl sep x k cur :
  Forall (fun q => forall a, In a q -> In a (cur ++ x)) (split_go sep x k cur).
Proof.
  revert k cur; induction x as [|c x IH]; intros k cur; simpl.
  - constructor; [|constructor]. intros a Ha. rewrite app_nil_r. now apply in_rev.
  - assert (Hsh : forall cur', Forall (fun q => forall a, In a q -> In a (cur' ++ x))
                    (split_go sep x k cur') ->
                  (forall a, In a (cur' ++ x) -> In a (cur ++ c :: x)) ->
                  Forall (fun q => forall a, In a q -> In a (cur ++ c :: x))
                    (split_go sep x k cur')).
    { intros cur' H Hi. eapply Forall_impl; [|exact H]. simpl; auto. }
    destruct k as [|k].
    + destruct (prefixb sep (c :: x)).
      * constructor.
        -- intros a Ha. apply in_rev in Ha. apply in_or_app. now left.
        -- revert IH; generalize (pred (List.length sep)); intros m IH.
           eapply Forall_impl; [|exact (IH m [])]. simpl.
           intros q Hq a Ha. apply in_or_app. right. right. auto.
      * eapply Forall_impl; [|exact (IH O (c :: cur))]. simpl.
        intros q Hq a Ha. specialize (Hq a Ha). simpl in Hq.
        rewrite in_app_iff in *. simpl. tauto.
    + eapply Forall_impl; [|exact (IH k cur)]. simpl.
      intros q Hq a Ha. specialize (Hq a Ha). rewrite in_app_iff in *. simpl. tauto.
Qed.

Lemma split_incl x sep : Forall (fun q => forall a, In a q -> In a x) (split x sep).
Proof. exact (split_go_incl sep x O []). Qed.

Lemma in_join a ps sep :
  In a (join ps sep) -> (exists q, In q ps /\ In a q) \/ In a sep.
Proof.
  induction ps as [|q ps IH]; simpl; [tauto|].
  destruct ps as [|q' ps]; [left; exists q; auto|].
  intros H. rewrite !in_app_iff in H. destruct H as [H|[H|H]].
  - left. exists q. auto.
  - auto.
  - destruct (IH H) as [[q0 [H1 H2]]|H']; [left; exists q0; simpl in *; tauto|auto].
Qed.

Lemma split_go_char_skip k q r cur :
  ~ In k q -> split_go [k] (q ++ r) O cur = split_go [k] r O (rev q ++ cur).
Proof.
  revert cur; induction q as [|c q IH]; intros cur Hq; [reflexivity|].
  simpl. replace (k =? c) with false.
  - simpl. rewrite IH by (simpl in Hq; tauto). rewrite <- app_assoc. reflexivity.
  - symmetry. apply Z.eqb_neq. intros ->. apply Hq. now left.
Qed.

Lemma split_join_char k ps :
  ps <> [] -> Forall (fun q => ~ In k q) ps -> split (join ps [k]) [k] = ps.
Proof.
  unfold split. induction ps as [|q ps IH]; intros Hne Hps; [congruence|].
  inversion Hps as [|? ? Hq Hps']; subst.
  destruct ps as [|q' ps].
  - simpl. rewrite <- (app_nil_r q) at 1. rewrite split_go_char_skip by exact Hq.
    simpl. rewrite app_nil_r, rev_involutive. reflexivity.
  - rewrite join_cons by discriminate.
    rewrite split_go_char_skip by exact Hq. simpl. rewrite Z.eqb_refl. simpl.
    rewrite app_nil_r, rev_involutive. f_equal. apply IH; [discriminate|exact Hps'].
Qed.

(** The literal replace of a pattern by a one-unit token is undone by the
    replace of the token by the pattern when the text has no token. *)
Lemma replace_all_roundtrip x p k :
  p <> [] -> ~ In k x -> replace_all (replace_all x p [k]) [k] p = x.
Proof.
  intros Hp Hk. unfold replace_all.
  rewrite split_join_char.
  - apply join_split. exact Hp.
  - apply split_go_nonempty.
  - eapply Forall_impl; [|apply split_incl]. simpl. intros q Hq Hin. auto.
Qed.

Lemma in_replace_all a x p t :
  In a (replace_all x p t) -> In a x \/ In a t.
Proof.
  unfold replace_all. intros H. destruct (in_join _ _ _ H) as [[q [Hq Ha]]|Ht]; [|auto].
  left. pose proof (split_incl x p) as Hi. rewrite Forall_forall in Hi. eauto.
Qed.

Section Dictionary.

Lemma dict_roundtrip D : dict_shape D ->
  forall x, (forall pt, In pt D -> ~ In (hd 0 (snd pt)) x) ->
  fold_left rev_step (rev D) (fold_left fwd_step D x) = x.
Proof.
  induction D as [|[p t] D IH]; intros [Hsh Hnd] x Hx; [reflexivity|].
  simpl. rewrite fold_left_app. simpl.
  destruct (Hsh (p, t) (or_introl eq_refl)) as [Hp Ht]. simpl in Hp, Ht.
  assert (exists k, t = [k]) as [k ->] by (rewrite Ht; eauto). clear Ht.
  simpl in Hnd. inversion Hnd as [|? ? Hk Hnd']; subst.
  rewrite IH.
  - apply replace_all_roundtrip; [exact Hp|]. apply (Hx (p, [k])). now left.
  - split; [intros pt Hpt; apply Hsh; now right|exact Hnd'].
  - intros pt Hpt Hin. apply in_replace_all in Hin as [Hin|Hin].
    + exact (Hx pt (or_intror Hpt) Hin).
    + simpl in Hin. destruct Hin as [Hin|[]]. apply Hk. rewrite Hin.
      apply in_map_iff. exists pt. auto.
Qed.

End Dictionary.

Lemma nodupb_NoDup l : nodupb l = true -> NoDup l.
Proof.
  induction l as [|x l IH]; simpl; intros H; constructor.
  - apply andb_true_iff in H as [H _]. intros Hin.
    apply negb_true_iff in H. assert (existsb (Z.eqb x) l = true) as E
      by (apply existsb_exists; exists x; rewrite Z.eqb_refl; auto). congruence.
  - apply andb_true_iff in H as [_ H]. auto.
Qed.

Lemma DICTIONARY_shape : dict_shape DICTIONARY.
Proof.
  split.
  - intros pt Hpt. repeat (destruct Hpt as [<-|Hpt]; [split; [discriminate|reflexivity]|]).
    destruct Hpt.
  - apply nodupb_NoDup. vm_compute. reflexivity.
Qed.

Lemma DICTIONARY_tokens_reserved pt :
  In pt DICTIONARY -> reserved (hd 0 (snd pt)) = true.
Proof.
  intros Hpt. repeat (destruct Hpt as [<-|Hpt]; [reflexivity|]). destruct Hpt.
Qed.

Lemma forallb_In {A} (f : A -> bool) l a : forallb f l = true -> In a l -> f a = true.
Proof. rewrite forallb_forall. auto. Qed.

(** The dictionary stage is undone by its reversal on text without reserved
    code points. *)
Lemma reverseDictionary_applyDictionary x :
  no_reserved x = true -> reverseDictionary (applyDictionary x) = x.
Proof.
  intros Hx. apply (dict_roundtrip DICTIONARY DICTIONARY_shape x).
  intros pt Hpt Hin. pose proof (DICTIONARY_tokens_reserved pt Hpt) as R.
  pose proof (forallb_In _ _ _ Hx Hin) as H. simpl in H. rewrite R in H. discriminate.
Qed.

(** ** Well-formed UTF-16 through the dictionary stage *)

Lemma wf16_app a b : wf16 a = true -> wf16 b = true -> wf16 (a ++ b) = true.
Proof.
  remember (List.length a) as n eqn:Hn. revert a Hn.
  induction n as [n IH] using (well_founded_induction lt_wf).
  intros [|c a] Hn Ha Hb; [exact Hb|]. simpl in Ha |- *.
  apply andb_true_iff in Ha as [Hu Ha]. rewrite Hu. simpl.
  destruct (is_high c).
  - destruct a as [|d a]; [discriminate|]. simpl.
    apply andb_true_iff in Ha as [Hd Ha]. rewrite Hd. simpl.
    apply (IH (List.length a)); auto. subst. simpl. lia.
  - apply andb_true_iff in Ha as [Hl Ha]. rewrite Hl. simpl.
    apply (IH (List.length a)); auto. subst. simpl. lia.
Qed.

Lemma wf16_app_inv a b :
  wf16 (a ++ b) = true -> (forall d, hd_error b = Some d -> is_low d = false) ->
  wf16 a = true /\ wf16 b = true.
Proof.
  remember (List.length a) as n eqn:Hn. revert a Hn.
  induction n as [n IH] using (well_founded_induction lt_wf).
  intros [|c a] Hn Hab Hb; [split; [reflexivity|exact Hab]|]. simpl in Hab |- *.
  apply andb_true_iff in Hab as [Hu Hab]. rewrite Hu. simpl.
  destruct (is_high c).
  - destruct a as [|d a].
    + simpl in Hab. destruct b as [|d b]; [discriminate|].
      rewrite (Hb d eq_refl) in Hab. discriminate.
    + simpl in Hab. apply andb_true_iff in Hab as [Hd Hab]. rewrite Hd. simpl.
      apply (IH (List.length a)); auto. subst. simpl. lia.
  - apply andb_true_iff in Hab as [Hl Hab]. rewrite Hl. simpl.
    apply (IH (List.length a)); auto. subst. simpl. lia.
Qed.

Lemma wf16_plain_app a b :
  forallb plain a = true -> wf16 (a ++ b) = true -> wf16 b = true.
Proof.
  induction a as [|c a IH]; simpl; intros Hp H; [exact H|].
  apply andb_true_iff in Hp as [Hc Hp]. unfold plain in Hc.
  destruct (is_unit c), (is_high c), (is_low c); simpl in Hc; try discriminate.
  simpl in H. auto.
Qed.

Lemma wf16_plain a : forallb plain a = true -> wf16 a = true.
Proof.
  induction a as [|c a IH]; simpl; intros Hp; [reflexivity|].
  apply andb_true_iff in Hp as [Hc Hp]. unfold plain in Hc.
  destruct (is_unit c), (is_high c), (is_low c); simpl in Hc; try discriminate.
  simpl. auto.
Qed.

Lemma wf16_join_pieces sep ps :
  sep <> [] -> forallb plain sep = true ->
  wf16 (join ps sep) = true -> Forall (fun q => wf16 q = true) ps.
Proof.
  intros Hne Hp. induction ps as [|q ps IH]; intros H; constructor.
  - destruct ps as [|q' ps]; [exact H|].
    rewrite join_cons in H by discriminate.
    apply (wf16_app_inv q (sep ++ join (q' :: ps) sep)) in H as [H _]; [exact H|].
    destruct sep as [|c sep]; [congruence|]. simpl. intros d Hd. injection Hd as <-.
    simpl in Hp. apply andb_true_iff in Hp as [Hc _]. unfold plain in Hc.
    destruct (is_low c); [|reflexivity]. rewrite andb_false_r in Hc. discriminate.
  - destruct ps as [|q' ps]; [constructor|]. apply IH.
    rewrite join_cons in H by discriminate.
    apply (wf16_app_inv q (sep ++ join (q' :: ps) sep)) in H as [_ H].
    + exact (wf16_plain_app _ _ Hp H).
    + destruct sep as [|c sep]; [congruence|]. simpl. intros d Hd. injection Hd as <-.
      simpl in Hp. apply andb_true_iff in Hp as [Hc _]. unfold plain in Hc.
      destruct (is_low c); [|reflexivity]. rewrite andb_false_r in Hc. discriminate.
Qed.

Lemma wf16_join ps sep :
  Forall (fun q => wf16 q = true) ps -> wf16 sep = true -> wf16 (join ps sep) = true.
Proof.
  intros Hps Hs. induction Hps as [|q ps Hq Hps IH]; [reflexivity|].
  destruct ps as [|q' ps]; [exact Hq|].
  rewrite join_cons by discriminate. apply wf16_app; [exact Hq|]. apply wf16_app; auto.
Qed.

Lemma wf16_replace_all x p t :
  p <> [] -> forallb plain p = true -> wf16 t = true ->
  wf16 x = true -> wf16 (replace_all x p t) = true.
Proof.
  intros Hne Hp Ht Hx. unfold replace_all. apply wf16_join; [|exact Ht].
  apply (wf16_join_pieces p); [exact Hne|exact Hp|]. rewrite join_split; assumption.
Qed.

Lemma wf16_applyDictionary x : wf16 x = true -> wf16 (applyDictionary x) = true.
Proof.
  unfold applyDictionary. generalize x. clear x.
  assert (Hd : forall pt, In pt DICTIONARY ->
            fst pt <> [] /\ forallb plain (fst pt) = true /\ wf16 (snd pt) = true).
  { intros pt Hpt.
    repeat (destruct Hpt as [<-|Hpt]; [split; [discriminate|split; reflexivity]|]).
    destruct Hpt. }
  induction DICTIONARY as [|[p t] D IH]; intros x Hx; simpl; [exact Hx|].
  apply IH; [intros pt Hpt; apply Hd; now right|].
  destruct (Hd (p, t) (or_introl eq_refl)) as [H1 [H2 H3]].
  apply wf16_replace_all; assumption.
Qed.

Lemma applyDictionary_nil_inv x :
  no_reserved x = true -> applyDictionary x = [] -> x = [].
Proof.
  intros Hx H. rewrite <- (reverseDictionary_applyDictionary x Hx), H. reflexivity.
Qed.

(** ** Base64 round trip *)

Lemma list3_ind (P : list Z -> Prop) :
  P [] -> (forall x, P [x]) -> (forall x y, P [x; y]) ->
  (forall x y z r, P r -> P (x :: y :: z :: r)) -> forall l, P l.
Proof.
  intros H0 H1 H2 H3. fix IH 1. intros [|x [|y [|z r]]].
  - exact H0.
  - apply H1.
  - apply H2.
  - apply H3, IH.
Qed.

Lemma b64_body_sextets b : b64_body b = map b64char (b64_sextets b).
Proof.
  induction b using list3_ind; try reflexivity. simpl. rewrite IHb. reflexivity.
Qed.

Ltac byte_arith := unfold is_byte in *;
  repeat match goal with H : _ && _ = true |- _ => apply andb_true_iff in H as [? ?] end;
  repeat match goal with
         | H : (_ <=? _) = true |- _ => apply Z.leb_le in H
         | H : (_ <? _) = true |- _ => apply Z.ltb_lt in H
         end;
  Z.div_mod_to_equations; lia.

Lemma b64_sextets_range b :
  forallb is_byte b = true -> Forall (fun i => 0 <= i < 64) (b64_sextets b).
Proof.
  induction b as [| x | x y | x y z r IH] using list3_ind; simpl; intros H;
    repeat constructor; try byte_arith.
  apply IH. simpl in H. repeat (apply andb_true_iff in H as [_ H]). exact H.
Qed.

Lemma b64_decode_sextets b : forallb is_byte b = true -> b64_decode (b64_sextets b) = b.
Proof.
  induction b as [| x | x y | x y z r IH] using list3_ind; simpl; intros H;
    [reflexivity| | |].
  - f_equal. byte_arith.
  - f_equal; [|f_equal]; byte_arith.
  - rewrite IH by (repeat (apply andb_true_iff in H as [_ H]); exact H).
    f_equal; [|f_equal; [|f_equal]]; byte_arith.
Qed.

Lemma sextet_cases (P : Z -> Prop) :
  (forall n, (n < 64)%nat -> P (Z.of_nat n)) -> forall i, 0 <= i < 64 -> P i.
Proof.
  intros H i Hi. rewrite <- (Z2Nat.id i) by lia. apply H. lia.
Qed.

Lemma b64index_b64char i : 0 <= i < 64 -> b64index (b64char i) = Some i.
Proof.
  revert i. apply sextet_cases. intros n Hn.
  do 64 (destruct n as [|n]; [reflexivity|]). lia.
Qed.

Lemma map_option_b64 s :
  Forall (fun i => 0 <= i < 64) s -> map_option b64index (map b64char s) = Some s.
Proof.
  induction 1 as [|i s Hi _ IH]; [reflexivity|]. simpl.
  rewrite b64index_b64char by exact Hi. rewrite IH. reflexivity.
Qed.

(** The characters [btoa] writes before its padding. *)
Lemma b64char_std i : 0 <= i < 64 -> b64_std (b64char i) = true.
Proof.
  revert i. apply sextet_cases. intros n Hn.
  do 64 (destruct n as [|n]; [reflexivity|]). lia.
Qed.

Lemma b64_std_not c : b64_std c = true ->
  c <> EQ /\ c <> 45 /\ c <> 95 /\ is_ascii_ws c = false.
Proof.
  unfold b64_std, is_alpha, is_digit, is_ascii_ws, EQ. intros H.
  repeat match goal with
         | H : _ || _ = true |- _ => apply orb_true_iff in H as [H|H]
         | H : _ && _ = true |- _ => apply andb_true_iff in H as [? ?]
         | H : (_ <=? _) = true |- _ => apply Z.leb_le in H
         | H : (_ =? _) = true |- _ => apply Z.eqb_eq in H
         end;
  (split; [lia|split; [lia|split; [lia|]]]);
  repeat rewrite (proj2 (Z.eqb_neq _ _)) by lia; reflexivity.
Qed.

Lemma b64_sextets_length b :
  ((List.length (b64_sextets b) + b64_pad (List.length b)) mod 4 = 0)%nat
  /\ (List.length (b64_sextets b) mod 4 <> 1)%nat
  /\ ((4 - List.length (b64_sextets b) mod 4) mod 4 = b64_pad (List.length b))%nat.
Proof.
  induction b as [| x | x y | x y z r IH] using list3_ind; [repeat split; discriminate| | |].
  - repeat split; discriminate.
  - repeat split; discriminate.
  - simpl List.length.
    assert (E4 : forall m, (S (S (S (S m))) mod 4 = m mod 4)%nat).
    { intros m. replace (S (S (S (S m)))) with (m + 1 * 4)%nat by lia.
      apply Nat.Div0.mod_add. }
    assert (E3 : forall n, b64_pad (S (S (S n))) = b64_pad n).
    { intros n. unfold b64_pad. replace (S (S (S n))) with (n + 1 * 3)%nat by lia.
      rewrite Nat.Div0.mod_add. reflexivity. }
    rewrite E3. simpl (_ + _)%nat. rewrite !E4. exact IH.
Qed.

Lemma drop_while_EQ_keep l :
  (forall c, In c l -> c <> EQ) -> drop_while (fun c => c =? EQ) l = l.
Proof.
  destruct l as [|c l]; intros H; [reflexivity|]. simpl.
  rewrite (proj2 (Z.eqb_neq c EQ)) by (apply H; now left). reflexivity.
Qed.

Lemma drop_while_repeat_EQ n l :
  drop_while (fun c => c =? EQ) (repeat EQ n ++ l) = drop_while (fun c => c =? EQ) l.
Proof. induction n; simpl; [reflexivity|]. exact IHn. Qed.

Lemma b64_pad_cases n : b64_pad n = 0%nat \/ b64_pad n = 1%nat \/ b64_pad n = 2%nat.
Proof. unfold b64_pad. destruct (n mod 3)%nat as [|[|[|k]]]; auto. Qed.

(** [fromUrlSafeBase64] inverts [toUrlSafeBase64] on bytes. *)
Lemma fromUrlSafeBase64_toUrlSafeBase64 b :
  forallb is_byte b = true -> fromUrlSafeBase64 (toUrlSafeBase64 b) = Some b.
Proof.
  intros Hb.
  pose proof (b64_sextets_range b Hb) as Hr.
  destruct (b64_sextets_length b) as [L1 [L2 L3]].
  set (S := b64_sextets b) in *. set (p := b64_pad (List.length b)) in *.
  set (body := map b64char S).
  assert (Hstd : forall c, In c body -> b64_std c = true).
  { intros c Hc. apply in_map_iff in Hc as [i [<- Hi]].
    apply b64char_std. rewrite Forall_forall in Hr. auto. }
  assert (Hbtoa : btoa b = body ++ repeat EQ p)
    by (unfold btoa, body, S, p; rewrite b64_body_sextets; reflexivity).
  set (url := replace_char 47 95 (replace_char 43 45 body)).
  assert (Hurl : forall c, In c url -> c <> EQ).
  { intros c Hc. unfold url, replace_char in Hc. rewrite map_map in Hc.
    apply in_map_iff in Hc as [d [<- Hd]]. pose proof (b64_std_not d (Hstd d Hd)) as Hn.
    destruct (d =? 43), (d =? 47); simpl; try destruct (45 =? 47); unfold EQ in *; lia. }
  assert (Hto : toUrlSafeBase64 b = url).
  { unfold toUrlSafeBase64. rewrite Hbtoa. unfold replace_char.
    rewrite !map_app, !map_repeat. simpl (if EQ =? _ then _ else _).
    rewrite rev_app_distr, rev_repeat, drop_while_repeat_EQ.
    rewrite drop_while_EQ_keep, rev_involutive; [reflexivity|].
    intros c Hc. apply Hurl. now apply in_rev. }
  assert (Hback : replace_char 95 47 (replace_char 45 43 url) = body).
  { unfold url, replace_char. rewrite !map_map.
    rewrite <- (map_id body) at 2. apply map_ext_in. intros c Hc.
    destruct (b64_std_not c (Hstd c Hc)) as [_ [H45 [H95 _]]].
    destruct (Z.eqb_spec c 43); [subst; reflexivity|].
    destruct (Z.eqb_spec c 47); [subst; reflexivity|].
    rewrite (proj2 (Z.eqb_neq c 45)), (proj2 (Z.eqb_neq c 95)) by assumption. reflexivity. }
  assert (Hlen : List.length body = List.length S) by apply length_map.
  unfold fromUrlSafeBase64. rewrite Hto, Hback.
  unfold pad4. rewrite Hlen, L3.
  unfold atob.
  rewrite forallb_filter_id.
  2:{ apply forallb_forall. intros c Hc. apply in_app_or in Hc as [Hc|Hc].
      - destruct (b64_std_not c (Hstd c Hc)) as [_ [_ [_ W]]]. rewrite W. reflexivity.
      - apply repeat_spec in Hc. subst. reflexivity. }
  assert (Hstrip : strip_padding (body ++ repeat EQ p) = body).
  { unfold strip_padding. rewrite length_app, repeat_length, Hlen, L1.
    simpl (0 =? 0)%nat. cbv iota beta.
    rewrite rev_app_distr, rev_repeat.
    assert (Hrb : forall c, In c (rev body) -> c <> EQ).
    { intros c Hc. apply in_rev in Hc. exact (proj1 (b64_std_not c (Hstd c Hc))). }
    destruct (b64_pad_cases (List.length b)) as [P|[P|P]]; fold p in P; rewrite P.
    - simpl. destruct (rev body) as [|a [|c r]] eqn:E.
      + apply app_nil_r.
      + rewrite (proj2 (Z.eqb_neq a EQ)) by (apply Hrb; now left). apply app_nil_r.
      + rewrite (proj2 (Z.eqb_neq a EQ)) by (apply Hrb; now left). apply app_nil_r.
    - simpl. destruct (rev body) as [|c r] eqn:E.
      + apply (f_equal (@rev Z)) in E. rewrite rev_involutive in E. simpl. now rewrite E.
      + rewrite ?Z.eqb_refl. rewrite (proj2 (Z.eqb_neq c EQ)) by (apply Hrb; now left).
        simpl. change (rev r ++ [c]) with (rev (c :: r)). rewrite <- E.
        apply rev_involutive.
    - simpl. rewrite ?Z.eqb_refl. simpl. apply rev_involutive. }
  rewrite Hstrip, Hlen.
  destruct (Nat.eqb_spec (List.length S mod 4) 1) as [E|_]; [contradiction|].
  unfold body. rewrite map_option_b64 by exact Hr.
  unfold S. rewrite b64_decode_sextets by exact Hb. reflexivity.
Qed.

(** ** decode after encode *)

Lemma decode_eq F hash :
  decode F hash =
  match hash with
  | [] => None
  | _ =>
    match fromUrlSafeBase64 hash with
    | None => None
    | Some compressed =>
      match decompressSync F compressed with
      | None => None
      | Some bytes =>
        match strFromU8 F bytes with
        | [] => None
        | decompressed => Some (decode_tag (reverseDictionary decompressed))
        end
      end
    end
  end.
Proof.
  unfold decode, decode_tag. destruct hash; [reflexivity|].
  destruct (fromUrlSafeBase64 _); [|reflexivity].
  destruct (decompressSync F _); [|reflexivity].
  destruct (strFromU8 F _); [reflexivity|]. cbv zeta.
  destruct (_ && _); [destruct (lang_pattern _)|]; reflexivity.
Qed.

Lemma toUrlSafeBase64_nonempty b :
  forallb is_byte b = true -> b <> [] -> toUrlSafeBase64 b <> [].
Proof.
  intros Hb Hne E. pose proof (fromUrlSafeBase64_toUrlSafeBase64 b Hb) as R.
  rewrite E in R. vm_compute in R. injection R as R. auto.
Qed.

Section WithFflate.

Variable F : Fflate.
Hypothesis HF : fflate_ok F.

(** The encoded token decodes to the payload read by [decode_tag], when the
    payload is well-formed UTF-16 without reserved code points. *)
Lemma decode_encode code lang :
  let p := payload_of (normalizeCode code) lang in
  wf16 p = true -> no_reserved p = true ->
  decode F (encode F code lang) =
  match p with [] => None | _ => Some (decode_tag p) end.
Proof.
  intros p Hwf Hres. unfold encode. fold p.
  set (q := applyDictionary p).
  pose proof (strToU8_bytes F HF q) as Hb.
  pose proof (compressSync_bytes F HF _ Hb) as Hcb.
  rewrite decode_eq.
  destruct (toUrlSafeBase64 (compressSync F (strToU8 F q))) as [|t ts] eqn:Et.
  { exfalso. exact (toUrlSafeBase64_nonempty _ Hcb (compressSync_nonempty F HF _) Et). }
  rewrite <- Et, fromUrlSafeBase64_toUrlSafeBase64 by exact Hcb.
  rewrite (decompressSync_compressSync F HF _ Hb).
  rewrite (strFromU8_strToU8 F HF q) by (apply wf16_applyDictionary; exact Hwf).
  destruct q as [|d ds] eqn:Eq.
  - rewrite (applyDictionary_nil_inv p Hres Eq). reflexivity.
  - rewrite <- Eq. unfold q. rewrite reverseDictionary_applyDictionary by exact Hres.
    destruct p as [|c cs]; [discriminate|reflexivity].
Qed.

End WithFflate.

Lemma first_pipe_app r pre post : first_pipe r = Some (pre, post) -> r = pre ++ PIPE :: post /\ ~ In PIPE pre.
Proof.
  revert pre post; induction r as [|c r IH]; intros pre post H; simpl in H; [discriminate|].
  destruct (Z.eqb_spec c PIPE) as [->|Hc].
  - injection H as <- <-. split; [reflexivity|intros []].
  - destruct (first_pipe r) as [[pre' post']|]; [|discriminate].
    injection H as <- <-. destruct (IH pre' post' eq_refl) as [-> Hn].
    split; [reflexivity|]. intros [E|E]; [congruence|auto].
Qed.

Lemma indexOf_pipe r :
  indexOf r [PIPE] =
  match first_pipe r with None => -1 | Some (pre, _) => Z.of_nat (List.length pre) end.
Proof.
  induction r as [|c r IH]; [reflexivity|].
  change (indexOf (c :: r) [PIPE]) with
    (if (PIPE =? c) && true then 0
     else let i := indexOf r [PIPE] in if i <? 0 then -1 else i + 1).
  simpl first_pipe. rewrite andb_true_r, (Z.eqb_sym PIPE c). cbv zeta.
  destruct (c =? PIPE); [reflexivity|]. rewrite IH.
  destruct (first_pipe r) as [[pre post]|]; [|reflexivity]. simpl.
  rewrite (proj2 (Z.ltb_ge _ 0)) by lia. lia.
Qed.

(** The code's language split is the split at the first [|] described for
    decode. *)
Lemma decode_tag_tag_split r : decode_tag r = tag_split r.
Proof.
  unfold decode_tag, tag_split. rewrite indexOf_pipe.
  destruct (first_pipe r) as [[pre post]|] eqn:E; [|reflexivity].
  destruct (first_pipe_app _ _ _ E) as [-> _].
  rewrite Nat2Z.id, firstn_app, Nat.sub_diag, firstn_all. simpl firstn.
  rewrite app_nil_r.
  replace (Z.to_nat (Z.of_nat (List.length pre) + 1)) with (S (List.length pre)) by lia.
  rewrite skipn_app, skipn_all2 by lia. simpl.
  replace (S (List.length pre) - List.length pre)%nat with 1%nat by lia. simpl.
  destruct (List.length pre) as [|n] eqn:Ln.
  - reflexivity.
  - replace ((0 <? Z.of_nat (S n)) && (Z.of_nat (S n) <? 20))
      with ((1 <=? S n)%nat && (S n <=? 19)%nat).
    + replace (S n - n)%nat with 1%nat by lia. simpl.
      destruct (n <=? 18)%nat, (lang_pattern pre); reflexivity.
    + destruct (Nat.leb_spec 1 (S n)), (Nat.leb_spec (S n) 19),
        (Z.ltb_spec 0 (Z.of_nat (S n))), (Z.ltb_spec (Z.of_nat (S n)) 20);
        simpl; try reflexivity; lia.
Qed.

(** ** normalizeCode: shape of its result *)

Section Adjacent.

Variable bad : Z -> Z -> bool.

Lemma adj_ok_app_cons l b m :
  adj_ok bad (l ++ b :: m) = true <->
  adj_ok bad l = true /\ (l = [] \/ bad (last l 0) b = false) /\ adj_ok bad (b :: m) = true.
Proof.
  induction l as [|a l IH]; simpl.
  - split; [intros H; auto|tauto].
  - destruct l as [|a' l]; simpl in *.
    + destruct (bad a b) eqn:E; simpl; split; intros H; intuition congruence.
    + rewrite andb_true_iff, IH, andb_true_iff.
      split; [intros [H1 [H2 [H3 H4]]]|intros [[H1 H2] [H3 H4]]]; repeat split; auto;
        (destruct H3 as [H3|H3]; [discriminate|auto]).
Qed.

Lemma adj_ok_suffix l m : adj_ok bad (l ++ m) = true -> adj_ok bad m = true.
Proof.
  induction l as [|a l IH]; simpl; [auto|]. intros H. apply IH.
  destruct (l ++ m); [reflexivity|]. apply andb_true_iff in H as [_ H]. exact H.
Qed.

Lemma adj_ok_prefix l m : adj_ok bad (l ++ m) = true -> adj_ok bad l = true.
Proof.
  destruct m as [|b m]; [rewrite app_nil_r; auto|].
  intros H. apply adj_ok_app_cons in H. tauto.
Qed.

End Adjacent.

Lemma no3lf_cons c s : c <> LF -> no3lf (c :: s) = no3lf s.
Proof.
  intros Hc. destruct s as [|b [|d s]]; try reflexivity.
  simpl. rewrite (proj2 (Z.eqb_neq c LF)) by exact Hc. reflexivity.
Qed.

Lemma no3lf_suffix l m : no3lf (l ++ m) = true -> no3lf m = true.
Proof.
  induction l as [|a l IH]; simpl; [auto|]. intros H. apply IH.
  destruct (l ++ m) as [|b [|d s]]; try reflexivity.
  apply andb_true_iff in H as [_ H]. exact H.
Qed.

Lemma no3lf_prefix l m : no3lf (l ++ m) = true -> no3lf l = true.
Proof.
  remember (List.length l) as n eqn:Hn. revert l Hn.
  induction n as [n IH] using (well_founded_induction lt_wf).
  intros [|a [|b [|c l]]] Hn H; try reflexivity.
  assert (E : forall t, no3lf (a :: b :: c :: t) =
                negb ((a =? LF) && (b =? LF) && (c =? LF)) && no3lf (b :: c :: t))
    by reflexivity.
  rewrite <- !app_comm_cons, E in H. rewrite E.
  apply andb_true_iff in H as [H1 H2]. rewrite H1, andb_true_l.
  apply (IH (List.length (b :: c :: l))); [subst; simpl; lia|reflexivity|exact H2].
Qed.

Lemma drop_while_suffix f l : exists p, l = p ++ drop_while f l.
Proof.
  induction l as [|a l [p Hp]]; [exists []; reflexivity|]. simpl.
  destruct (f a); [exists (a :: p); simpl; congruence|exists []; reflexivity].
Qed.

Lemma trimEnd_prefix v : exists s, v = trimEnd v ++ s.
Proof.
  destruct (drop_while_suffix is_ws (rev v)) as [p Hp]. exists (rev p).
  unfold trimEnd. rewrite <- rev_app_distr, <- Hp, rev_involutive. reflexivity.
Qed.

Lemma trimStart_suffix u : exists p, u = p ++ trimStart u.
Proof. apply drop_while_suffix. Qed.

Lemma drop_while_head f l :
  drop_while f l = [] \/ exists a r, drop_while f l = a :: r /\ f a = false.
Proof.
  induction l as [|a l IH]; simpl; [auto|].
  destruct (f a) eqn:E; [exact IH|right; exists a, l; auto].
Qed.

Lemma last_rev_cons (a : Z) r d : last (rev (a :: r)) d = a.
Proof. simpl. apply last_last. Qed.

Lemma trimEnd_last l : trimEnd l = [] \/ is_ws (last (trimEnd l) 0) = false.
Proof.
  unfold trimEnd. destruct (drop_while_head is_ws (rev l)) as [->|[a [r [-> Ha]]]].
  - left. reflexivity.
  - right. rewrite last_rev_cons. exact Ha.
Qed.

Lemma trimEnd_incl l a : In a (trimEnd l) -> In a l.
Proof.
  unfold trimEnd. intros H. apply in_rev in H.
  destruct (drop_while_suffix is_ws (rev l)) as [p Hp].
  apply in_rev. rewrite Hp. apply in_or_app. now right.
Qed.

Lemma trimEnd_id l : (l = [] \/ is_ws (last l 0) = false) -> trimEnd l = l.
Proof.
  intros H. unfold trimEnd. destruct (rev l) as [|a r] eqn:E.
  - simpl. apply (f_equal (@rev Z)) in E. rewrite rev_involutive in E. auto.
  - assert (Hl : l = rev r ++ [a])
      by (apply (f_equal (@rev Z)) in E; rewrite rev_involutive in E; exact E).
    destruct H as [H|H]; [subst l; destruct (rev r); discriminate|].
    rewrite Hl, last_last in H. simpl. rewrite H. rewrite <- E, rev_involutive. reflexivity.
Qed.

Lemma last_app_cons (l m : str) b d : last (l ++ b :: m) d = last (b :: m) d.
Proof.
  induction l as [|a l IH]; [reflexivity|]. simpl. rewrite IH.
  destruct l; simpl; destruct m; reflexivity.
Qed.

Lemma last_not_ws_suffix l b m : last_not_ws (l ++ b :: m) = last_not_ws (b :: m).
Proof.
  unfold last_not_ws. destruct (l ++ b :: m) eqn:E; [destruct l; discriminate|].
  rewrite <- E, last_app_cons. reflexivity.
Qed.

Lemma replace_crlf_id s : adj_ok ws_before_lf s = true -> replace_crlf s = s.
Proof.
  induction s as [|c t IH]; [reflexivity|]. intros H.
  destruct t as [|d r]; [reflexivity|].
  change (replace_crlf (c :: d :: r)) with
    (if (c =? CR) && (d =? LF) then LF :: replace_crlf r else c :: replace_crlf (d :: r)).
  change (adj_ok ws_before_lf (c :: d :: r))
    with (negb (ws_before_lf c d) && adj_ok ws_before_lf (d :: r)) in H.
  apply andb_true_iff in H as [H1 H2].
  destruct (Z.eqb_spec c CR) as [->|Hc].
  - destruct (Z.eqb_spec d LF) as [->|Hd].
    + vm_compute in H1. discriminate H1.
    + rewrite andb_false_r, IH by exact H2. reflexivity.
  - rewrite andb_false_l, IH by exact H2. reflexivity.
Qed.

Lemma split_go_lines_trimmed z cur :
  (forall a, In a cur -> a <> LF) ->
  adj_ok ws_before_lf (rev cur ++ z) = true -> last_not_ws (rev cur ++ z) = true ->
  Forall (fun l => trimEnd l = l) (split_go [LF] z O cur).
Proof.
  revert cur; induction z as [|c z IH]; intros cur Hcur Hadj Hlast.
  - constructor; [|constructor]. apply trimEnd_id. rewrite app_nil_r in Hlast.
    destruct (rev cur); [auto|right]. simpl in Hlast. now apply negb_true_iff in Hlast.
  - cbn [split_go prefixb]. rewrite andb_true_r, (Z.eqb_sym LF c).
    destruct (Z.eqb_spec c LF) as [->|Hc].
    + constructor.
      * apply trimEnd_id. destruct cur as [|a cur']; [left; reflexivity|right].
        simpl rev in *. rewrite last_last.
        rewrite <- app_assoc in Hadj. simpl in Hadj.
        apply adj_ok_app_cons in Hadj as [_ [_ Hadj]].
        change (adj_ok ws_before_lf (a :: LF :: z))
          with (negb (ws_before_lf a LF) && adj_ok ws_before_lf (LF :: z)) in Hadj.
        apply andb_true_iff in Hadj as [Hadj _]. unfold ws_before_lf in Hadj.
        rewrite Z.eqb_refl, (proj2 (Z.eqb_neq a LF)) in Hadj by (apply Hcur; now left).
        destruct (is_ws a); [discriminate|reflexivity].
      * apply IH; [intros a []| |].
        -- apply (adj_ok_suffix _ (rev cur ++ [LF])). rewrite <- app_assoc. exact Hadj.
        -- destruct z as [|d z]; [reflexivity|].
           change (last_not_ws (d :: z) = true).
           rewrite (last_not_ws_suffix (rev cur)) in Hlast.
           change (LF :: d :: z) with ([LF] ++ d :: z) in Hlast.
           rewrite last_not_ws_suffix in Hlast. exact Hlast.
    + apply IH.
      * intros a [<-|Ha]; [exact Hc|auto].
      * simpl. rewrite <- app_assoc. exact Hadj.
      * simpl. rewrite <- app_assoc. exact Hlast.
Qed.

Lemma collapse_nl_id z n :
  (n <= 2)%nat -> no3lf (repeat LF n ++ z) = true -> collapse_nl n z = repeat LF n ++ z.
Proof.
  revert n; induction z as [|c z IH]; intros n Hn H.
  - simpl. rewrite app_nil_r. unfold cap_run.
    destruct (Nat.leb_spec 3 n); [lia|reflexivity].
  - simpl. destruct (Z.eqb_spec c LF) as [->|Hc].
    + destruct (Nat.eq_dec n 2) as [->|Hn2]; [discriminate H|].
      assert (R : repeat LF (S n) ++ z = repeat LF n ++ LF :: z).
      { change (repeat LF (S n)) with (LF :: repeat LF n).
        rewrite repeat_cons, <- app_assoc. reflexivity. }
      rewrite IH, R; [reflexivity|lia|rewrite R; exact H].
    + unfold cap_run. destruct (Nat.leb_spec 3 n); [lia|].
      rewrite IH by (try lia; apply (no3lf_suffix (repeat LF n ++ [c]));
                     rewrite <- app_assoc; exact H).
      reflexivity.
Qed.

Lemma ends_not_ws_trim s : ends_not_ws s = true -> trim s = s.
Proof.
  destruct s as [|c s']; [reflexivity|]. intros H. simpl in H.
  apply andb_true_iff in H as [H1 H2].
  unfold trim. rewrite trimEnd_id.
  - unfold trimStart. simpl. apply negb_true_iff in H1. rewrite H1. reflexivity.
  - right. apply negb_true_iff in H2. exact H2.
Qed.

Lemma ends_not_ws_last z : ends_not_ws z = true -> last_not_ws z = true.
Proof.
  destruct z as [|c z']; [reflexivity|]. intros H.
  apply andb_true_iff in H as [_ H]. exact H.
Qed.

(** The line-by-line steps of [normalizeCode] keep a text whose lines have
    no trailing whitespace. *)
Lemma lines_id z :
  adj_ok ws_before_lf z = true -> last_not_ws z = true ->
  join (map trimEnd (split (replace_crlf z) [LF])) [LF] = z.
Proof.
  intros H1 H2. rewrite replace_crlf_id by exact H1.
  assert (Hl : map trimEnd (split z [LF]) = split z [LF]).
  { rewrite <- (map_id (split z [LF])) at 2. apply map_ext_in. intros l Hl.
    pose proof (split_go_lines_trimmed z [] (fun a H => match H with end) H1 H2) as HF.
    rewrite Forall_forall in HF. exact (HF l Hl). }
  rewrite Hl. apply join_split. discriminate.
Qed.

(** A text in the shape [normalizeCode] produces is left unchanged by it. *)
Lemma normalizeCode_fixed z :
  adj_ok ws_before_lf z = true -> no3lf z = true -> ends_not_ws z = true ->
  normalizeCode z = z.
Proof.
  intros H1 H2 H3. unfold normalizeCode.
  rewrite lines_id by (auto using ends_not_ws_last).
  rewrite (collapse_nl_id z O) by (auto; lia).
  apply ends_not_ws_trim. exact H3.
Qed.

Lemma split_go_char_pieces k x cur :
  ~ In k cur -> Forall (fun q => ~ In k q) (split_go [k] x O cur).
Proof.
  revert cur; induction x as [|c x IH]; intros cur Hcur.
  - constructor; [|constructor]. rewrite <- in_rev. exact Hcur.
  - cbn [split_go prefixb]. rewrite andb_true_r.
    destruct (Z.eqb_spec k c) as [<-|Hc].
    + constructor; [rewrite <- in_rev; exact Hcur|]. apply IH. intros [].
    + apply IH. intros [->|H]; [apply Hc; reflexivity|exact (Hcur H)].
Qed.

Lemma adj_ok_LF_cons w : adj_ok ws_before_lf (LF :: w) = adj_ok ws_before_lf w.
Proof.
  destruct w as [|b w]; [reflexivity|].
  change (negb (ws_before_lf LF b) && adj_ok ws_before_lf (b :: w) =
          adj_ok ws_before_lf (b :: w)).
  unfold ws_before_lf. rewrite Z.eqb_refl, andb_false_r. reflexivity.
Qed.

Lemma adj_ok_repeat_LF k w :
  adj_ok ws_before_lf (repeat LF k ++ w) = adj_ok ws_before_lf w.
Proof.
  induction k as [|k IH]; [reflexivity|].
  change (adj_ok ws_before_lf (LF :: repeat LF k ++ w) = adj_ok ws_before_lf w).
  rewrite adj_ok_LF_cons. exact IH.
Qed.

Lemma adj_ok_no_LF q : ~ In LF q -> adj_ok ws_before_lf q = true.
Proof.
  induction q as [|a q IH]; intros H; [reflexivity|].
  destruct q as [|b q]; [reflexivity|].
  change (negb (ws_before_lf a b) && adj_ok ws_before_lf (b :: q) = true).
  rewrite IH by (intros Hin; apply H; right; exact Hin).
  unfold ws_before_lf. destruct (Z.eqb_spec b LF) as [->|]; [|rewrite !andb_false_r; reflexivity].
  exfalso. apply H. right. left. reflexivity.
Qed.

Lemma adj_ok_join_lines ps :
  Forall (fun q => ~ In LF q /\ (q = [] \/ is_ws (last q 0) = false)) ps ->
  adj_ok ws_before_lf (join ps [LF]) = true.
Proof.
  induction ps as [|q ps IH]; intros H; [reflexivity|].
  inversion H as [|? ? [Hq Hl] Hps]; subst.
  destruct ps as [|q' ps']; [apply adj_ok_no_LF; exact Hq|].
  rewrite join_cons by discriminate. apply adj_ok_app_cons. split; [|split].
  - apply adj_ok_no_LF. exact Hq.
  - destruct Hl as [->|Hl]; [left; reflexivity|right].
    unfold ws_before_lf. rewrite Hl. reflexivity.
  - rewrite adj_ok_LF_cons. apply IH. exact Hps.
Qed.

Lemma collapse_nl_hd z n :
  hd_error (collapse_nl n z) = match n with O => hd_error z | S _ => Some LF end.
Proof.
  revert n; induction z as [|c z IH]; intros n.
  - destruct n as [|[|[|n]]]; reflexivity.
  - simpl. destruct (Z.eqb_spec c LF) as [->|Hc].
    + rewrite IH. destruct n; reflexivity.
    + unfold cap_run. destruct n as [|[|[|n]]]; reflexivity.
Qed.

Lemma adj_ok_collapse_nl z n :
  adj_ok ws_before_lf z = true -> adj_ok ws_before_lf (collapse_nl n z) = true.
Proof.
  revert n; induction z as [|c z IH]; intros n H.
  - simpl. rewrite <- (app_nil_r (repeat LF _)), adj_ok_repeat_LF. reflexivity.
  - simpl. assert (Hz : adj_ok ws_before_lf z = true)
      by (apply (adj_ok_suffix _ [c]); exact H).
    destruct (Z.eqb_spec c LF) as [->|Hc]; [apply IH; exact Hz|].
    rewrite adj_ok_repeat_LF.
    pose proof (collapse_nl_hd z O) as Hhd.
    pose proof (IH O Hz) as Hw.
    destruct (collapse_nl O z) as [|b w]; [reflexivity|].
    destruct z as [|d z]; [discriminate Hhd|]. injection Hhd as <-.
    change (negb (ws_before_lf c b) && adj_ok ws_before_lf (b :: w) = true).
    change (negb (ws_before_lf c b) && adj_ok ws_before_lf (b :: z) = true) in H.
    apply andb_true_iff in H as [H _]. rewrite H, Hw. reflexivity.
Qed.

Lemma no3lf_repeat_LF k c w :
  (k <= 2)%nat -> c <> LF -> no3lf (repeat LF k ++ c :: w) = no3lf w.
Proof.
  intros Hk Hc. rewrite <- (no3lf_cons c w Hc).
  assert (E1 : no3lf (LF :: c :: w) = no3lf (c :: w)).
  { destruct w as [|d w]; [reflexivity|].
    change (negb ((LF =? LF) && (c =? LF) && (d =? LF)) && no3lf (c :: d :: w)
            = no3lf (c :: d :: w)).
    rewrite (proj2 (Z.eqb_neq c LF) Hc), andb_false_r. reflexivity. }
  destruct k as [|[|[|k]]]; try lia; [reflexivity|exact E1|].
  change (negb ((LF =? LF) && (LF =? LF) && (c =? LF)) && no3lf (LF :: c :: w)
          = no3lf (c :: w)).
  rewrite (proj2 (Z.eqb_neq c LF) Hc), andb_false_r. exact E1.
Qed.

Lemma no3lf_collapse_nl z n : no3lf (collapse_nl n z) = true.
Proof.
  revert n; induction z as [|c z IH]; intros n.
  - simpl. unfold cap_run. destruct n as [|[|[|n]]]; reflexivity.
  - simpl. destruct (Z.eqb_spec c LF) as [->|Hc]; [apply IH|].
    rewrite no3lf_repeat_LF; [apply IH| |exact Hc].
    unfold cap_run. destruct (Nat.leb_spec 3 n); lia.
Qed.

Lemma ends_not_ws_trim_out s : ends_not_ws (trim s) = true.
Proof.
  unfold trim. destruct (trimStart_suffix (trimEnd s)) as [p Hp].
  unfold trimStart in *.
  destruct (drop_while_head is_ws (trimEnd s)) as [E|[a [r [E Ha]]]];
    rewrite E in *; [reflexivity|].
  change (negb (is_ws a) && negb (is_ws (last (a :: r) 0)) = true). rewrite Ha.
  destruct (trimEnd_last s) as [E'|Hl]; [rewrite E' in Hp; destruct p; discriminate|].
  rewrite Hp, last_app_cons in Hl. rewrite Hl. reflexivity.
Qed.

(** Every output of [normalizeCode] is in the shape [normalizeCode_fixed]
    asks for. *)
Lemma normalizeCode_shape x :
  adj_ok ws_before_lf (normalizeCode x) = true /\ no3lf (normalizeCode x) = true /\
  ends_not_ws (normalizeCode x) = true.
Proof.
  unfold normalizeCode.
  set (w := collapse_nl O _).
  assert (Hw : adj_ok ws_before_lf w = true /\ no3lf w = true).
  { split; [|apply no3lf_collapse_nl]. apply adj_ok_collapse_nl.
    apply adj_ok_join_lines. apply Forall_map.
    pose proof (split_go_char_pieces LF (replace_crlf x) [] (fun H => H)) as HP.
    eapply Forall_impl; [|exact HP]. simpl. intros q Hq. split.
    - intros Hin. apply Hq. apply trimEnd_incl. exact Hin.
    - destruct (trimEnd_last q) as [->|Hl]; [left; reflexivity|right; exact Hl]. }
  destruct Hw as [Hw1 Hw2].
  destruct (trimEnd_prefix w) as [s Hs]. destruct (trimStart_suffix (trimEnd w)) as [p Hp].
  unfold trim. split; [|split].
  - apply (adj_ok_suffix _ p). rewrite <- Hp.
    apply (adj_ok_prefix _ _ s). rewrite <- Hs. exact Hw1.
  - apply (no3lf_suffix p). rewrite <- Hp.
    apply (no3lf_prefix _ s). rewrite <- Hs. exact Hw2.
  - apply ends_not_ws_trim_out.
Qed.










(** ** The base64url alphabet of the token *)

Lemma url_safe_char c :
  b64_std c = true ->
  url_char ((fun c => if c =? 47 then 95 else c) ((fun c => if c =? 43 then 45 else c) c))
  = true.
Proof.
  intros H. cbv beta.
  destruct (Z.eqb_spec c 43) as [->|H1]; [reflexivity|].
  destruct (Z.eqb_spec c 47) as [->|H2]; [reflexivity|].
  unfold b64_std in H. rewrite (proj2 (Z.eqb_neq c 43) H1), (proj2 (Z.eqb_neq c 47) H2) in H.
  rewrite !orb_false_r in H. unfold url_char. rewrite H. reflexivity.
Qed.

Lemma url_char_not_EQ c : url_char c = true -> c <> EQ.
Proof. intros H E. subst. discriminate H. Qed.

Lemma toUrlSafeBase64_url b :
  forallb is_byte b = true -> forallb url_char (toUrlSafeBase64 b) = true.
Proof.
  intros Hb. pose proof (b64_sextets_range b Hb) as Hr.
  set (g := fun c => if c =? 47 then 95 else c).
  set (f := fun c => if c =? 43 then 45 else c).
  assert (HX : forallb url_char (map g (map f (b64_body b))) = true).
  { apply forallb_forall. intros c Hc.
    rewrite b64_body_sextets in Hc.
    apply in_map_iff in Hc as [c1 [<- Hc]]. apply in_map_iff in Hc as [c2 [<- Hc]].
    apply in_map_iff in Hc as [i [<- Hi]].
    apply url_safe_char, b64char_std. rewrite Forall_forall in Hr. exact (Hr i Hi). }
  unfold toUrlSafeBase64, btoa, replace_char. fold g f.
  rewrite !map_app, !map_repeat.
  change (g (f EQ)) with EQ.
  rewrite rev_app_distr, rev_repeat, drop_while_repeat_EQ, drop_while_EQ_keep,
    rev_involutive by (intros c Hc; apply in_rev in Hc; apply url_char_not_EQ;
                       exact (proj1 (forallb_forall _ _) HX c Hc)).
  exact HX.
Qed.

(** ** Inputs [decode] rejects *)

Lemma b64index_bad c : atob_char c = false -> b64index c = None.
Proof.
  unfold atob_char, url_char, is_alpha, is_digit, b64index.
  destruct ((65 <=? c) && (c <=? 90)), ((97 <=? c) && (c <=? 122)),
    ((48 <=? c) && (c <=? 57)), (c =? 43), (c =? 47); intros H; simpl in *; rewrite ?orb_true_r in H; simpl in H; congruence.
Qed.

Lemma strip_padding_keep c s : In c s -> c <> EQ -> In c (strip_padding s).
Proof.
  intros H Hc. unfold strip_padding. destruct (List.length s mod 4 =? 0)%nat; [|exact H].
  assert (H' : In c (rev s)) by (rewrite <- in_rev; exact H).
  destruct (rev s) as [|a [|b r]] eqn:E.
  - exact H.
  - destruct (a =? EQ) eqn:Ea; [|exact H]. apply Z.eqb_eq in Ea.
    destruct H' as [<-|[]]. contradiction.
  - destruct (a =? EQ) eqn:Ea, (b =? EQ) eqn:Eb; cbn [andb]; try exact H.
    + apply Z.eqb_eq in Ea, Eb. rewrite <- in_rev.
      destruct H' as [<-|[<-|H']]; [contradiction|contradiction|exact H'].
    + apply Z.eqb_eq in Ea. rewrite <- in_rev.
      destruct H' as [<-|H']; [contradiction|exact H'].
Qed.

Lemma map_option_none {A B} (f : A -> option B) l x :
  In x l -> f x = None -> map_option f l = None.
Proof.
  induction l as [|y l IH]; intros Hin Hf; [destruct Hin|].
  simpl. destruct Hin as [->|Hin]; [rewrite Hf; reflexivity|].
  destruct (f y); [|reflexivity]. rewrite IH by assumption. reflexivity.
Qed.

Lemma fromUrlSafeBase64_bad h c : In c h -> atob_char c = false -> fromUrlSafeBase64 h = None.
Proof.
  intros Hin Hc.
  pose proof Hc as Hc'. unfold atob_char, url_char in Hc'.
  repeat rewrite orb_false_iff in Hc'.
  destruct Hc' as [[[[[[_ H45] H95] _] _] HEQ] Hws].
  apply Z.eqb_neq in H45, H95, HEQ.
  unfold fromUrlSafeBase64, atob. cbv zeta.
  assert (Hs : In c (strip_padding (filter (fun c => negb (is_ascii_ws c))
            (pad4 (replace_char 95 47 (replace_char 45 43 h)))))).
  { apply strip_padding_keep; [|exact HEQ].
    apply filter_In. split; [|rewrite Hws; reflexivity].
    unfold pad4. apply in_or_app. left. unfold replace_char.
    apply in_map_iff. exists c. split; [rewrite (proj2 (Z.eqb_neq c 95) H95); reflexivity|].
    apply in_map_iff. exists c. split; [rewrite (proj2 (Z.eqb_neq c 45) H45); reflexivity|].
    exact Hin. }
  destruct (_ mod 4 =? 1)%nat; [reflexivity|].
  rewrite (map_option_none _ _ c Hs (b64index_bad c Hc)). reflexivity.
Qed.

(** ** Payloads with a language *)

Ltac zbool :=
  repeat match goal with
         | |- context [Z.leb ?a ?b] => destruct (Z.leb_spec a b)
         | |- context [Z.ltb ?a ?b] => destruct (Z.ltb_spec a b)
         end; simpl; try reflexivity; try lia.

Lemma lang_char c :
  is_alpha c || is_digit c || (c =? 45) = true ->
  plain c = true /\ reserved c = false /\ c <> PIPE.
Proof.
  unfold is_alpha, is_digit. intros H.
  assert (B : 45 <= c <= 122).
  { repeat match goal with
           | H : _ || _ = true |- _ => apply orb_true_iff in H as [H|H]
           | H : _ && _ = true |- _ => apply andb_true_iff in H as [? ?]
           | H : (_ <=? _) = true |- _ => apply Z.leb_le in H
           | H : (_ =? _) = true |- _ => apply Z.eqb_eq in H
           end; lia. }
  unfold plain, is_unit, is_high, is_low, reserved, PIPE.
  split; [|split]; [zbool|zbool|lia].
Qed.

Lemma valid_lang_chars l :
  valid_lang l = true -> forall c, In c l -> plain c = true /\ reserved c = false /\ c <> PIPE.
Proof.
  destruct l as [|c0 r]; [discriminate|]. intros H c Hc. simpl in H.
  apply andb_true_iff in H as [H _]. apply andb_true_iff in H as [H0 Hr].
  apply lang_char. destruct Hc as [<-|Hc].
  - rewrite H0. reflexivity.
  - exact (forallb_In _ _ _ Hr Hc).
Qed.

Lemma valid_lang_tag l :
  valid_lang l = true ->
  (1 <=? List.length l)%nat && (List.length l <=? 19)%nat && lang_pattern l = true.
Proof.
  destruct l as [|c r]; [discriminate|]. simpl. intros H.
  apply andb_true_iff in H as [H H3]. apply andb_true_iff in H as [H1 H2].
  rewrite H1, H2, H3. reflexivity.
Qed.

Lemma first_pipe_app_inv pre post :
  ~ In PIPE pre -> first_pipe (pre ++ PIPE :: post) = Some (pre, post).
Proof.
  induction pre as [|c pre IH]; intros H; cbn [first_pipe app]; [rewrite Z.eqb_refl; reflexivity|].
  rewrite (proj2 (Z.eqb_neq c PIPE)) by (intros ->; apply H; left; reflexivity).
  rewrite IH by (intros Hin; apply H; right; exact Hin). reflexivity.
Qed.

Lemma lang_payload_ok l n :
  valid_lang l = true -> wf16 n = true -> no_reserved n = true ->
  wf16 (l ++ [PIPE] ++ n) = true /\ no_reserved (l ++ [PIPE] ++ n) = true.
Proof.
  intros Hl Hw Hr. pose proof (valid_lang_chars l Hl) as Hc. split.
  - apply wf16_app; [|apply wf16_app; [reflexivity|exact Hw]].
    apply wf16_plain, forallb_forall. intros c Hin. apply (Hc c Hin).
  - unfold no_reserved in *. rewrite !forallb_app, Hr, andb_true_r. simpl.
    rewrite ?andb_true_r. apply forallb_forall. intros c Hin.
    destruct (Hc c Hin) as [_ [-> _]]. reflexivity.
Qed.

Lemma tag_split_lang l n :
  valid_lang l = true -> tag_split (l ++ PIPE :: n) = {| code := n; lang := Some l |}.
Proof.
  intros Hl. unfold tag_split. rewrite first_pipe_app_inv.
  - rewrite valid_lang_tag by exact Hl. reflexivity.
  - intros Hin. exact (proj2 (proj2 (valid_lang_chars l Hl PIPE Hin)) eq_refl).
Qed.

Lemma tag_split_plain r :
  (forall pre post, first_pipe r = Some (pre, post) -> valid_lang pre = false) ->
  tag_split r = {| code := r; lang := None |}.
Proof.
  intros H. unfold tag_split. destruct (first_pipe r) as [[pre post]|] eqn:E; [|reflexivity].
  specialize (H pre post eq_refl).
  destruct ((1 <=? List.length pre)%nat && (List.length pre <=? 19)%nat && lang_pattern pre)
    eqn:T; [|reflexivity].
  destruct pre as [|c r']; [discriminate|]. simpl in T, H.
  apply andb_true_iff in T as [T1 T2]. rewrite T2, T1 in H. discriminate H.
Qed.

(** ** The sample library meets the contract *)

Lemma is_byte_mod x : is_byte (x mod 256) = true.
Proof.
  unfold is_byte. pose proof (Z.mod_pos_bound x 256 ltac:(lia)).
  apply andb_true_iff. split; [apply Z.leb_le|apply Z.ltb_lt]; lia.
Qed.

Lemma wf16_units n s : (List.length s <= n)%nat -> wf16 s = true -> forallb is_unit s = true.
Proof.
  revert s; induction n as [|n IH]; intros s Hn H.
  - destruct s; [reflexivity|simpl in Hn; lia].
  - destruct s as [|c s']; [reflexivity|]. simpl in H |- *.
    apply andb_true_iff in H as [Hu H]. rewrite Hu. simpl.
    destruct (is_high c).
    + destruct s' as [|d s'']; [discriminate|]. apply andb_true_iff in H as [Hd H].
      simpl. unfold is_low in Hd. unfold is_unit.
      apply andb_true_iff in Hd as [Hd1 Hd2]. apply Z.leb_le in Hd1, Hd2.
      rewrite (proj2 (Z.leb_le 0 d)), (proj2 (Z.ltb_lt d 65536)) by lia.
      apply IH; [simpl in Hn; lia|exact H].
    + apply andb_true_iff in H as [_ H]. apply IH; [simpl in Hn; lia|exact H].
Qed.

Lemma Sample_ok : fflate_ok Sample.
Proof.
  split; simpl.
  - intros s. induction s as [|u s IH]; [reflexivity|]. simpl.
    rewrite !is_byte_mod. exact IH.
  - intros s Hs. pose proof (wf16_units (List.length s) s (le_n _) Hs) as Hu.
    clear Hs. induction s as [|u s IH]; [reflexivity|]. simpl in Hu |- *.
    apply andb_true_iff in Hu as [Hu Hs]. rewrite IH by exact Hs. f_equal.
    unfold is_unit in Hu. apply andb_true_iff in Hu as [H1 H2].
    apply Z.leb_le in H1. apply Z.ltb_lt in H2.
    rewrite (Z.mod_small (u / 256) 256)
      by (split; [apply Z.div_pos; lia|apply Z.div_lt_upper_bound; lia]).
    rewrite Z.mul_comm. symmetry. apply Z.div_mod. lia.
  - intros b Hb. exact Hb.
  - discriminate.
  - reflexivity.
Qed.

Lemma decode_encode_none F (HF : fflate_ok F) c :
  wf16 (normalizeCode c) = true -> no_reserved (normalizeCode c) = true ->
  normalizeCode c <> [] ->
  decode F (encode F c None) = Some (tag_split (normalizeCode c)).
Proof.
  intros Hw Hr Hne. rewrite (decode_encode F HF c None Hw Hr). simpl.
  destruct (normalizeCode c) as [|u n]; [contradiction|].
  rewrite decode_tag_tag_split. reflexivity.
Qed.

Lemma url_status_spec n :
  (isWarning (url_status n) = true <-> URL_WARNING_LIMIT < n <= URL_ERROR_LIMIT) /\
  (isError (url_status n) = true <-> URL_ERROR_LIMIT < n).
Proof.
  unfold url_status. simpl. rewrite andb_true_iff, Z.ltb_lt, Z.leb_le, Z.ltb_lt.
  split; reflexivity.
Qed.

Lemma updateUrlHash_eq F code lang w :
  updateUrlHash F code lang w =
  let encoded := encode F code lang in
  let status :=
    url_status (Z.of_nat (List.length (origin w ++ pathname w ++ [HASH] ++ encoded))) in
  if isError status then (status, w) else (status, replaceState w ([HASH] ++ encoded)).
Proof.
  unfold updateUrlHash. cbv zeta.
  destruct (isError (url_status _)); reflexivity.
Qed.

(** ** normalizeCode on a text given as lines *)


















(** ** The claims *)

(** C1 (amended): for a code string [c] whose normalization is well-formed
    UTF-16 and has no code point in U+E000-U+E01E, and a valid language
    identifier [l], [decode (encode c l)] is [{code: normalize c, lang: l}].
    With the language omitted, [decode (encode c)] is [null] when
    [normalize c] is empty, and otherwise the language split of
    [normalize c]; it is [{code: normalize c, lang: undefined}] exactly when
    [normalize c] is not empty and the text before its first [|], if any, is
    not a valid language identifier. *)
Theorem C1_roundtrip F (HF : fflate_ok F) c :
  wf16 (normalizeCode c) = true -> no_reserved (normalizeCode c) = true ->
  (forall l, valid_lang l = true ->
     decode F (encode F c (Some l)) = Some {| code := normalizeCode c; lang := Some l |}) /\
  (normalizeCode c = [] -> decode F (encode F c None) = None) /\
  (normalizeCode c <> [] -> decode F (encode F c None) = Some (tag_split (normalizeCode c))) /\
  (decode F (encode F c None) = Some {| code := normalizeCode c; lang := None |} <->
   normalizeCode c <> [] /\
   (forall pre post, first_pipe (normalizeCode c) = Some (pre, post) ->
      valid_lang pre = false)).
Proof.
  intros Hw Hr.
  assert (Hnil : normalizeCode c = [] -> decode F (encode F c None) = None).
  { intros H. pose proof (decode_encode F HF c None) as D. cbv zeta in D.
    simpl payload_of in D. rewrite H in D. apply D; reflexivity. }
  split; [|split; [exact Hnil|split; [exact (decode_encode_none F HF c Hw Hr)|split]]].
  - intros l Hl. destruct (lang_payload_ok l _ Hl Hw Hr) as [Hw' Hr'].
    assert (Hp : payload_of (normalizeCode c) (Some l) = l ++ [PIPE] ++ normalizeCode c)
      by (destruct l; [discriminate|reflexivity]).
    pose proof (decode_encode F HF c (Some l)) as D. cbv zeta in D. rewrite Hp in D.
    rewrite D by assumption. simpl app.
    destruct (l ++ PIPE :: normalizeCode c) as [|u r] eqn:E; [destruct l; discriminate|].
    rewrite <- E, decode_tag_tag_split, tag_split_lang by exact Hl. reflexivity.
  - intros E. destruct (list_eq_dec Z.eq_dec (normalizeCode c) []) as [H0|Hne].
    + rewrite (Hnil H0) in E. discriminate E.
    + rewrite (decode_encode_none F HF c Hw Hr Hne) in E. injection E as E.
      split; [exact Hne|]. intros pre post Hp.
      destruct (valid_lang pre) eqn:V; [|reflexivity]. exfalso.
      destruct (first_pipe_app _ _ _ Hp) as [Hc _].
      rewrite Hc, tag_split_lang in E by exact V. congruence.
  - intros [Hne Hpre]. rewrite (decode_encode_none F HF c Hw Hr Hne).
    rewrite tag_split_plain by exact Hpre. reflexivity.
Qed.

Lemma C1_witness :
  decode Sample (encode Sample (js "x") (Some (js "js")))
  = Some {| code := js "x"; lang := Some (js "js") |}.
Proof.
  exact (proj1 (C1_roundtrip Sample Sample_ok (js "x") eq_refl eq_refl) (js "js") eq_refl).
Defined.

Lemma C1_counterexample :
  normalizeCode (js "ls|wc") = js "ls|wc" /\
  decode Sample (encode Sample (js "ls|wc") None)
  = Some {| code := js "wc"; lang := Some (js "ls") |} /\
  normalizeCode [57344] = [57344] /\
  decode Sample (encode Sample [57344] (Some (js "js")))
  = Some {| code := js "    "; lang := Some (js "js") |}.
Proof. vm_compute. repeat split. Qed.

(** C2 (amended): without a language, a non-empty normalized code body
    (well-formed UTF-16, no code point in U+E000-U+E01E) decodes to the
    language split of the text itself: [print('x')] decodes to
    [{code: "print('x')", lang: undefined}], but a body whose text before
    its first [|] is an identifier of 1 to 19 characters, such as [a|b],
    decodes to that language and the rest as code. *)
Theorem C2_no_lang F (HF : fflate_ok F) c :
  wf16 (normalizeCode c) = true -> no_reserved (normalizeCode c) = true ->
  normalizeCode c <> [] ->
  decode F (encode F c None) = Some (tag_split (normalizeCode c)).
Proof. intros Hw Hr Hne. exact (decode_encode_none F HF c Hw Hr Hne). Qed.

Lemma C2_witness :
  decode Sample (encode Sample (js "print('x')") None)
  = Some {| code := js "print('x')"; lang := None |}.
Proof.
  exact (C2_no_lang Sample Sample_ok (js "print('x')") eq_refl eq_refl
           ltac:(discriminate)).
Defined.

Lemma C2_counterexample :
  normalizeCode (js "a|b") = js "a|b" /\
  decode Sample (encode Sample (js "a|b") None)
  = Some {| code := js "b"; lang := Some (js "a") |}.
Proof. vm_compute. split; reflexivity. Qed.

(** C3 (amended): [decode] is total (it never throws) and returns [null] on
    empty input, on input with a character outside the base64url and
    base64 alphabets, [=] and ASCII whitespace, and on input whose base64
    decoding succeeds but whose bytes fail decompression.  Input with [+],
    [/], [=] or ASCII whitespace is not rejected for that reason alone. *)
Theorem C3_decode_null F h :
  h = [] \/ (exists c, In c h /\ atob_char c = false) \/
  (exists b, fromUrlSafeBase64 h = Some b /\ decompressSync F b = None) ->
  decode F h = None.
Proof.
  rewrite decode_eq. intros [->|[[c [Hin Hc]]|[b [Hb Hd]]]]; [reflexivity| |].
  - destruct h as [|u h']; [reflexivity|].
    rewrite (fromUrlSafeBase64_bad _ c Hin Hc). reflexivity.
  - destruct h as [|u h']; [reflexivity|]. rewrite Hb, Hd. reflexivity.
Qed.

Lemma C3_witness : decode Sample (js "not-valid-base64!!") = None.
Proof.
  apply C3_decode_null. right. left. exists 33. split; [|reflexivity].
  vm_compute. repeat (first [left; reflexivity | right]).
Defined.

Lemma C3_counterexample :
  url_char 32 = false /\
  decode Sample (encode Sample (js "x") None ++ js "    ")
  = Some {| code := js "x"; lang := None |}.
Proof. vm_compute. split; reflexivity. Qed.

(** C4: the status [updateUrlHash] returns has as [length] the length of
    the full URL, [isWarning] exactly when [2000 < length <= 8000] and
    [isError] exactly when [length > 8000]; at 2000 neither flag is set,
    2001 warns, 8000 warns without error and 8001 is an error. *)
Theorem C4_thresholds F code lang w :
  let st := fst (updateUrlHash F code lang w) in
  length st = Z.of_nat (List.length (origin w ++ pathname w ++ [HASH] ++ encode F code lang)) /\
  (isWarning st = true <-> 2000 < length st <= 8000) /\
  (isError st = true <-> 8000 < length st) /\
  isWarning (url_status 2000) = false /\ isError (url_status 2000) = false /\
  isWarning (url_status 2001) = true /\
  isWarning (url_status 8000) = true /\ isError (url_status 8000) = false /\
  isError (url_status 8001) = true.
Proof.
  cbv zeta. rewrite updateUrlHash_eq. cbv zeta.
  set (n := Z.of_nat (List.length (origin w ++ pathname w ++ [HASH] ++ encode F code lang))).
  assert (Hst : fst (if isError (url_status n) then (url_status n, w)
                     else (url_status n, replaceState w ([HASH] ++ encode F code lang)))
                = url_status n) by (destruct (isError (url_status n)); reflexivity).
  rewrite Hst. destruct (url_status_spec n) as [A B].
  split; [reflexivity|]. split; [exact A|]. split; [exact B|].
  repeat split.
Qed.

(** C5: [updateUrlHash] always computes the token and returns the status of
    the full URL; when the status is an error the window is unchanged, and
    otherwise only the fragment of the current history entry becomes
    ["#" ++ token], no history entry being added. *)
Theorem C5_write F code lang w :
  let encoded := encode F code lang in
  let r := updateUrlHash F code lang w in
  fst r = url_status (Z.of_nat (List.length (origin w ++ pathname w ++ [HASH] ++ encoded))) /\
  (isError (fst r) = true -> snd r = w) /\
  (isError (fst r) = false ->
   snd r = {| origin := origin w; pathname := pathname w;
              hash := HASH :: encoded; back := back w |}).
Proof.
  cbv zeta. rewrite updateUrlHash_eq. cbv zeta.
  destruct (isError (url_status _)) eqn:E; cbn [fst snd];
    (split; [reflexivity|split]); intros H; first [reflexivity|congruence].
Qed.




(** C7: [normalizeCode] is idempotent. *)
Theorem C7_idempotent c : normalizeCode (normalizeCode c) = normalizeCode c.
Proof.
  destruct (normalizeCode_shape c) as [H1 [H2 H3]].
  apply normalizeCode_fixed; assumption.
Qed.

(** C8: when the hash is non-empty, its base64url decoding, decompression
    and UTF-8 decoding succeed and give a non-empty text, [decode] returns
    the language split of the restored text (split at the first [|] when it
    is at index 1 to 19 and the text before it matches the identifier
    pattern, else the whole text as code and no language); it returns
    [null] otherwise and never fails. *)
Theorem C8_decode_split F hash :
  decode F hash =
  match hash with
  | [] => None
  | _ =>
    match fromUrlSafeBase64 hash with
    | None => None
    | Some compressed =>
      match decompressSync F compressed with
      | None => None
      | Some bytes =>
        match strFromU8 F bytes with
        | [] => None
        | decompressed => Some (tag_split (reverseDictionary decompressed))
        end
      end
    end
  end.
Proof.
  rewrite decode_eq. destruct hash as [|u h]; [reflexivity|].
  destruct (fromUrlSafeBase64 _); [|reflexivity].
  destruct (decompressSync F _); [|reflexivity].
  destruct (strFromU8 F _); [reflexivity|].
  rewrite decode_tag_tag_split. reflexivity.
Qed.

(** C9: with a library meeting the fflate contract, every token [encode]
    returns is made of base64url characters only. *)
Theorem C9_url_alphabet F (HF : fflate_ok F) code lang :
  forallb url_char (encode F code lang) = true.
Proof.
  unfold encode. apply toUrlSafeBase64_url, (compressSync_bytes F HF), (strToU8_bytes F HF).
Qed.

Lemma C9_witness : forallb url_char (encode Sample (js "x") (Some (js "js"))) = true.
Proof. exact (C9_url_alphabet Sample Sample_ok (js "x") (Some (js "js"))). Defined.

(** C10: a code string whose normalization is empty, encoded without a
    language, decodes to [null]. *)
Theorem C10_empty_null F (HF : fflate_ok F) c :
  normalizeCode c = [] -> decode F (encode F c None) = None.
Proof.
  intros H. pose proof (decode_encode F HF c None) as D. cbv zeta in D.
  simpl payload_of in D. rewrite H in D. apply D; reflexivity.
Qed.

Lemma C10_witness : decode Sample (encode Sample [32; 10; 9; 32] None) = None.
Proof. exact (C10_empty_null Sample Sample_ok [32; 10; 9; 32] eq_refl). Defined.

(** ** Further properties of the codec and the page *)

Lemma toUrlSafeBase64_body b :
  forallb is_byte b = true -> toUrlSafeBase64 b = replace_char 47 95 (replace_char 43 45 (b64_body b)).
Proof.
  intros Hb. pose proof (b64_sextets_range b Hb) as Hr.
  assert (HX : forall c, In c (replace_char 47 95 (replace_char 43 45 (b64_body b))) -> c <> EQ).
  { intros c Hc. unfold replace_char in Hc. rewrite b64_body_sextets in Hc.
    apply in_map_iff in Hc as [c1 [<- Hc]]. apply in_map_iff in Hc as [c2 [<- Hc]].
    apply in_map_iff in Hc as [i [<- Hi]]. apply url_char_not_EQ, url_safe_char, b64char_std.
    rewrite Forall_forall in Hr. exact (Hr i Hi). }
  unfold toUrlSafeBase64, btoa. unfold replace_char at 1 2.
  rewrite !map_app, !map_repeat. change ((fun c => if c =? 47 then 95 else c)
    ((fun c => if c =? 43 then 45 else c) EQ)) with EQ.
  rewrite rev_app_distr, rev_repeat, drop_while_repeat_EQ, drop_while_EQ_keep,
    rev_involutive by (intros c Hc; apply in_rev in Hc; exact (HX c Hc)).
  reflexivity.
Qed.

Lemma b64_sextets_length_exact b :
  List.length (b64_sextets b) = ((4 * List.length b + 2) / 3)%nat.
Proof.
  induction b as [| x | x y | x y z r IH] using list3_ind; try reflexivity.
  cbn [b64_sextets List.length app]. rewrite IH.
  replace (4 * S (S (S (List.length r))) + 2)%nat
    with ((4 * List.length r + 2) + 4 * 3)%nat by lia.
  rewrite Nat.div_add by lia. lia.
Qed.

Lemma normalizeCode_idem c : normalizeCode (normalizeCode c) = normalizeCode c.
Proof.
  destruct (normalizeCode_shape c) as [H1 [H2 H3]].
  apply normalizeCode_fixed; assumption.
Qed.

Lemma decode_encode_lang F (HF : fflate_ok F) c l :
  wf16 (normalizeCode c) = true -> no_reserved (normalizeCode c) = true ->
  valid_lang l = true ->
  decode F (encode F c (Some l)) = Some {| code := normalizeCode c; lang := Some l |}.
Proof.
  intros Hw Hr Hl. destruct (lang_payload_ok l _ Hl Hw Hr) as [Hw' Hr'].
  assert (Hp : payload_of (normalizeCode c) (Some l) = l ++ [PIPE] ++ normalizeCode c)
    by (destruct l; [discriminate|reflexivity]).
  pose proof (decode_encode F HF c (Some l)) as D. cbv zeta in D. rewrite Hp in D.
  rewrite D by assumption. simpl app.
  destruct (l ++ PIPE :: normalizeCode c) as [|u r] eqn:E; [destruct l; discriminate|].
  rewrite <- E, decode_tag_tag_split, tag_split_lang by exact Hl. reflexivity.
Qed.

Lemma readUrlHash_replaceState F w t :
  readUrlHash F (replaceState w (HASH :: t)) = decode F t.
Proof. reflexivity. Qed.

(** What a read of the URL gives after [updateUrlHash]. *)
Lemma readUrlHash_updateUrlHash F c lang w :
  let n := Z.of_nat (List.length (origin w ++ pathname w ++ [HASH] ++ encode F c lang)) in
  (n <= 8000 -> readUrlHash F (snd (updateUrlHash F c lang w)) = decode F (encode F c lang)) /\
  (8000 < n -> snd (updateUrlHash F c lang w) = w).
Proof.
  cbv zeta. rewrite updateUrlHash_eq. cbv zeta.
  set (n := Z.of_nat (List.length (origin w ++ pathname w ++ [HASH] ++ encode F c lang))).
  change (isError (url_status n)) with (8000 <? n).
  destruct (Z.ltb_spec 8000 n); cbn [snd]; split; intros; first [reflexivity | lia].
Qed.

Lemma tag_split_lang_valid r l : lang (tag_split r) = Some l -> valid_lang l = true.
Proof.
  unfold tag_split. destruct (first_pipe r) as [[pre post]|]; [|discriminate].
  destruct ((1 <=? List.length pre)%nat && (List.length pre <=? 19)%nat && lang_pattern pre)
    eqn:T; [|discriminate].
  simpl. intros E. injection E as <-.
  destruct pre as [|c r']; [discriminate|]. simpl in T |- *.
  apply andb_true_iff in T as [T1 T2]. rewrite T2, andb_true_l. exact T1.
Qed.

Lemma tag_split_no_lang r : lang (tag_split r) = None -> code (tag_split r) = r.
Proof.
  unfold tag_split. destruct (first_pipe r) as [[pre post]|]; [|reflexivity].
  destruct (_ && _); [discriminate|reflexivity].
Qed.

Lemma decode_some F h d :
  decode F h = Some d -> exists x, x <> [] /\ d = tag_split (reverseDictionary x).
Proof.
  rewrite decode_eq. destruct h as [|u h]; [discriminate|].
  destruct (fromUrlSafeBase64 _); [|discriminate].
  destruct (decompressSync F _); [|discriminate].
  destruct (strFromU8 F _) as [|a x] eqn:E; [discriminate|].
  intros H. injection H as <-. exists (a :: x). split; [discriminate|].
  apply decode_tag_tag_split.
Qed.

Lemma replace_all_nonempty x p t :
  x <> [] -> p <> [] -> t <> [] -> replace_all x p t <> [].
Proof.
  intros Hx Hp Ht. unfold replace_all.
  pose proof (join_split x p Hp) as J.
  destruct (split x p) as [|q [|q' qs]] eqn:E.
  - exfalso. exact (split_go_nonempty p x O [] E).
  - simpl in J |- *. congruence.
  - rewrite join_cons by discriminate. destruct q, t; simpl; congruence.
Qed.

Lemma reverseDictionary_nonempty x : x <> [] -> reverseDictionary x <> [].
Proof.
  unfold reverseDictionary. generalize x. clear x.
  assert (Hd : forall pt, In pt (rev DICTIONARY) -> fst pt <> [] /\ snd pt <> []).
  { intros pt Hpt. apply in_rev in Hpt.
    repeat (destruct Hpt as [<-|Hpt]; [split; discriminate|]). destruct Hpt. }
  induction (rev DICTIONARY) as [|[p t] D IH]; intros x Hx; simpl; [exact Hx|].
  apply IH; [intros pt Hpt; apply Hd; now right|].
  destruct (Hd (p, t) (or_introl eq_refl)) as [H1 H2].
  apply replace_all_nonempty; assumption.
Qed.

Lemma str_eqb_eq a b : str_eqb a b = true <-> a = b.
Proof.
  revert b; induction a as [|x a IH]; intros [|y b]; simpl; try (split; congruence).
  rewrite andb_true_iff, Z.eqb_eq, IH. split; [intros [-> ->]; reflexivity|].
  intros E; injection E as -> ->. auto.
Qed.

Lemma str_eqb_refl a : str_eqb a a = true.
Proof. apply str_eqb_eq. reflexivity. Qed.

Lemma includes_In xs x : includes xs x = true -> In x xs.
Proof.
  unfold includes. intros H. apply existsb_exists in H as [y [Hy E]].
  apply str_eqb_eq in E. subst. exact Hy.
Qed.

Lemma getMonacoLang_range avail id :
  In (getMonacoLang avail id) avail \/ getMonacoLang avail id = js "plaintext".
Proof.
  unfold getMonacoLang.
  assert (Hf : In (if includes avail id then id else js "plaintext") avail \/
               (if includes avail id then id else js "plaintext") = js "plaintext").
  { destruct (includes avail id) eqn:E; [left; apply includes_In; exact E|right; reflexivity]. }
  destruct (lookup id VSCODE_TO_MONACO_MAP) as [[|m ms]|]; try exact Hf.
  destruct (includes avail (m :: ms)) eqn:E; [left; apply includes_In; exact E|exact Hf].
Qed.

Lemma option_map_const (o : option bool) (v : bool) b : option_map (fun _ => v) o = Some b -> b = v.
Proof. destruct o; simpl; congruence. Qed.

Lemma handleTap_cases now p e :
  editor p = Some e ->
  handleTap now p =
  if (now - lastTapTime p <? 300) && isReadOnly p
  then Normal (set_lastTapTime now
         (set_editor (Some (editor_focus (editor_updateOptions false e)))
            (updateModeIndicator
               (set_editor (Some (editor_updateOptions false e)) (set_isReadOnly false p)))))
  else Normal (set_lastTapTime now p).
Proof.
  intros He. unfold handleTap. destruct (_ && _); [|reflexivity].
  unfold setReadOnly, editor_call. simpl. rewrite He. reflexivity.
Qed.

Lemma debounce_go_last delay timer t ts :
  exists pre, debounce_go delay timer (t :: ts) = pre ++ [last (t :: ts) 0 + delay] /\
              (List.length pre <= List.length ts + match timer with Some _ => 1 | None => 0 end)%nat.
Proof.
  revert timer t. induction ts as [|t' ts IH]; intros timer t.
  - exists (match timer with Some d => if d <=? t then [d] else [] | None => [] end).
    split; [reflexivity|]. destruct timer as [d|]; [destruct (d <=? t)|]; simpl; lia.
  - destruct (IH (Some (t + delay)) t') as [pre [E L]].
    exists (match timer with Some d => if d <=? t then [d] else [] | None => [] end ++ pre).
    split.
    + cbn [debounce_go]. cbn [debounce_go] in E. rewrite E, app_assoc. reflexivity.
    + rewrite length_app. simpl in L |- *. destruct timer as [d|]; [destruct (d <=? t)|]; simpl; lia.
Qed.

Lemma debounce_go_close delay t ts :
  close_calls delay t ts = true ->
  debounce_go delay (Some (t + delay)) ts = [last (t :: ts) 0 + delay].
Proof.
  revert t. induction ts as [|t' ts IH]; intros t H; [reflexivity|].
  simpl in H. apply andb_true_iff in H as [H1 H2]. apply Z.ltb_lt in H1.
  cbn [debounce_go]. rewrite (proj2 (Z.leb_gt _ _)) by lia. simpl app.
  rewrite IH by exact H2. reflexivity.
Qed.

Lemma handleTap_in_sync now p :
  in_sync p ->
  exists p', handleTap now p = Normal p' /\ in_sync p' /\ lastTapTime p' = now /\
             (isReadOnly p' = true -> isReadOnly p = true).
Proof.
  intros [[e [He Hro]] [Hm Hc]]. rewrite (handleTap_cases now p e He).
  destruct (_ && _).
  - eexists. split; [reflexivity|]. split; [|split; [reflexivity|discriminate]].
    cbn. split; [eexists; split; reflexivity|].
    split; intros b H; exact (option_map_const _ _ _ H).
  - eexists. split; [reflexivity|]. split; [|split; [reflexivity|auto]].
    cbn. split; [exists e; auto|split; assumption].
Qed.

Lemma showUrlWarning_fields s p :
  win (showUrlWarning s p) = win p /\
  currentLanguage (showUrlWarning s p) = currentLanguage p /\
  urlWarning (showUrlWarning s p) =
    (if negb (isWarning s) && negb (isError s) then None else Some (isError s)).
Proof.
  unfold showUrlWarning, updateUrlStatus.
  destruct (urlStatus p); destruct (negb (isWarning s) && negb (isError s)); repeat split.
Qed.

Lemma read_after_update F (HF : fflate_ok F) c l w :
  wf16 (normalizeCode c) = true -> no_reserved (normalizeCode c) = true ->
  valid_lang l = true ->
  let n := Z.of_nat (List.length (origin w ++ pathname w ++ [HASH] ++ encode F c (Some l))) in
  (n <= 8000 -> readUrlHash F (snd (updateUrlHash F c (Some l) w))
                = Some {| code := normalizeCode c; lang := Some l |}) /\
  (8000 < n -> readUrlHash F (snd (updateUrlHash F c (Some l) w)) = readUrlHash F w).
Proof.
  intros Hw Hr Hl. cbv zeta. destruct (readUrlHash_updateUrlHash F c (Some l) w) as [A B].
  split; intros H.
  - rewrite (A H). apply decode_encode_lang; assumption.
  - rewrite (B H). reflexivity.
Qed.

(** ** Further properties of the codec and the page: the statements *)

(** X1: [fromUrlSafeBase64] inverts [toUrlSafeBase64] on every byte array. *)
Theorem X1_base64url_roundtrip b :
  forallb is_byte b = true -> fromUrlSafeBase64 (toUrlSafeBase64 b) = Some b.
Proof. exact (fromUrlSafeBase64_toUrlSafeBase64 b). Qed.

Lemma X1_witness :
  forallb is_byte [0; 251; 255; 62] = true /\
  fromUrlSafeBase64 (toUrlSafeBase64 [0; 251; 255; 62]) = Some [0; 251; 255; 62].
Proof. split; [reflexivity|]. apply X1_base64url_roundtrip. reflexivity. Defined.

(** X2: the base64url text of [n] bytes has [ceil (4 n / 3)] characters,
    that is [(4 n + 2) / 3]: the padding is dropped. *)
Theorem X2_token_length b :
  forallb is_byte b = true ->
  List.length (toUrlSafeBase64 b) = ((4 * List.length b + 2) / 3)%nat.
Proof.
  intros Hb. rewrite toUrlSafeBase64_body by exact Hb. unfold replace_char.
  rewrite !length_map, b64_body_sextets, length_map. apply b64_sextets_length_exact.
Qed.

Lemma X2_witness :
  forallb is_byte [1; 2; 3; 4] = true /\ List.length (toUrlSafeBase64 [1; 2; 3; 4]) = 6%nat.
Proof. split; [reflexivity|]. exact (X2_token_length [1; 2; 3; 4] eq_refl). Defined.

(** X3: [reverseDictionary] undoes [applyDictionary] on every text without a
    code point of U+E000-U+E01E. *)
Theorem X3_dictionary_roundtrip x :
  no_reserved x = true -> reverseDictionary (applyDictionary x) = x.
Proof. exact (reverseDictionary_applyDictionary x). Qed.

Lemma X3_witness :
  no_reserved (js "function f() { return null; }") = true /\
  reverseDictionary (applyDictionary (js "function f() { return null; }"))
  = js "function f() { return null; }".
Proof. split; [reflexivity|]. apply X3_dictionary_roundtrip. reflexivity. Defined.

(** X4: [applyDictionary] maps well-formed UTF-16 text to well-formed UTF-16
    text, so its UTF-8 encoding loses nothing. *)
Theorem X4_dictionary_wf16 x : wf16 x = true -> wf16 (applyDictionary x) = true.
Proof. exact (wf16_applyDictionary x). Qed.

Lemma X4_witness :
  wf16 (js "if (a) {" ++ [55357; 56832]) = true /\
  wf16 (applyDictionary (js "if (a) {" ++ [55357; 56832])) = true.
Proof. split; [reflexivity|]. apply X4_dictionary_wf16. reflexivity. Defined.

(** X5: every language [decode] returns is a valid identifier: a letter
    followed by at most 18 letters, digits or hyphens. *)
Theorem X5_decode_lang_valid F h d l :
  decode F h = Some d -> lang d = Some l -> valid_lang l = true.
Proof.
  intros H Hl. destruct (decode_some F h d H) as [x [_ ->]].
  exact (tag_split_lang_valid _ _ Hl).
Qed.

Lemma X5_witness :
  decode Sample (encode Sample (js "x") (Some (js "js")))
  = Some {| code := js "x"; lang := Some (js "js") |} /\ valid_lang (js "js") = true.
Proof.
  split; [vm_compute; reflexivity|].
  apply (X5_decode_lang_valid Sample (encode Sample (js "x") (Some (js "js")))
           {| code := js "x"; lang := Some (js "js") |}); [vm_compute|]; reflexivity.
Defined.

(** X6: when [decode] returns a snippet without a language, its code is not
    empty. *)
Theorem X6_decode_code_nonempty F h d :
  decode F h = Some d -> lang d = None -> code d <> [].
Proof.
  intros H Hl. destruct (decode_some F h d H) as [x [Hx ->]].
  rewrite (tag_split_no_lang _ Hl). apply reverseDictionary_nonempty, Hx.
Qed.

Lemma X6_witness :
  decode Sample (encode Sample (js "x") None) = Some {| code := js "x"; lang := None |} /\
  js "x" <> [].
Proof.
  split; [vm_compute; reflexivity|].
  apply (X6_decode_code_nonempty Sample (encode Sample (js "x") None)
           {| code := js "x"; lang := None |}); [vm_compute|]; reflexivity.
Defined.

(** X8: a snippet survives a second save: for a valid language and a code
    whose normalization is well-formed UTF-16 without reserved code points,
    [decode] of the token [encode] writes gives a snippet [d], and encoding
    [d] again, at another time (another instance of the library), and
    decoding gives [d] again. *)
Theorem X8_reencode F1 F2 (HF1 : fflate_ok F1) (HF2 : fflate_ok F2) c l :
  wf16 (normalizeCode c) = true -> no_reserved (normalizeCode c) = true ->
  valid_lang l = true ->
  exists d, decode F1 (encode F1 c (Some l)) = Some d /\
            decode F2 (encode F2 (code d) (lang d)) = Some d.
Proof.
  intros Hw Hr Hl. exists {| code := normalizeCode c; lang := Some l |}.
  split; [apply decode_encode_lang; assumption|]. cbn [code lang].
  rewrite decode_encode_lang by (rewrite ?normalizeCode_idem; assumption).
  rewrite normalizeCode_idem. reflexivity.
Qed.

Lemma X8_witness :
  wf16 (normalizeCode (js "a  b   " ++ [LF])) = true /\
  no_reserved (normalizeCode (js "a  b   " ++ [LF])) = true /\ valid_lang (js "js") = true /\
  exists d, decode Sample (encode Sample (js "a  b   " ++ [LF]) (Some (js "js"))) = Some d /\
            decode Sample (encode Sample (code d) (lang d)) = Some d.
Proof.
  split; [reflexivity|split; [reflexivity|split; [reflexivity|]]].
  exact (X8_reencode Sample Sample Sample_ok Sample_ok (js "a  b   " ++ [LF]) (js "js")
           eq_refl eq_refl eq_refl).
Defined.

(** X9: after [updateUrlHash] with a valid language, reading the URL with
    [readUrlHash] gives back the normalized code and the language when the
    full URL has at most 8000 characters (the code's normalization being
    well-formed UTF-16 without reserved code points); above that the window
    is unchanged. *)
Theorem X9_read_after_update F (HF : fflate_ok F) c l w :
  wf16 (normalizeCode c) = true -> no_reserved (normalizeCode c) = true ->
  valid_lang l = true ->
  let n := Z.of_nat (List.length (origin w ++ pathname w ++ [HASH] ++ encode F c (Some l))) in
  (n <= 8000 -> readUrlHash F (snd (updateUrlHash F c (Some l) w))
                = Some {| code := normalizeCode c; lang := Some l |}) /\
  (8000 < n -> snd (updateUrlHash F c (Some l) w) = w).
Proof.
  intros Hw Hr Hl. cbv zeta. split.
  - exact (proj1 (read_after_update F HF c l w Hw Hr Hl)).
  - exact (proj2 (readUrlHash_updateUrlHash F c (Some l) w)).
Qed.

Lemma X9_witness :
  readUrlHash Sample (snd (updateUrlHash Sample (js "x") (Some (js "js")) sample_window))
  = Some {| code := js "x"; lang := Some (js "js") |}.
Proof.
  apply (proj1 (X9_read_after_update Sample Sample_ok (js "x") (js "js") sample_window
                  eq_refl eq_refl eq_refl)).
  apply Z.leb_le. vm_compute. reflexivity.
Defined.

(** X10: a tap never makes the editor read-only; on a page whose editor
    exists and whose [readOnly] option, mode indicator and container class
    agree with [isReadOnly], [handleTap] returns normally, keeps them in
    agreement and records the tap time. *)
Theorem X10_tap_never_locks now p :
  in_sync p ->
  exists p', handleTap now p = Normal p' /\ in_sync p' /\ lastTapTime p' = now /\
             (isReadOnly p' = true -> isReadOnly p = true).
Proof. exact (handleTap_in_sync now p). Qed.

Lemma X10_witness :
  in_sync (sample_page true) /\
  exists p', handleTap 5000 (sample_page true) = Normal p' /\ in_sync p' /\
             lastTapTime p' = 5000 /\ (isReadOnly p' = true -> isReadOnly (sample_page true) = true).
Proof.
  assert (H : in_sync (sample_page true)).
  { split; [eexists; split; reflexivity|].
    split; intros b E; injection E as <-; reflexivity. }
  split; [exact H|]. exact (X10_tap_never_locks 5000 (sample_page true) H).
Defined.

(** X11: two taps less than 300 ms apart leave the editor editable, whatever
    its mode before: [isReadOnly] and the editor's [readOnly] option are
    false. *)
Theorem X11_double_tap t1 t2 p :
  in_sync p -> t2 - t1 < 300 ->
  exists p2, obind (handleTap t1 p) (handleTap t2) = Normal p2 /\
             isReadOnly p2 = false /\ in_sync p2 /\ lastTapTime p2 = t2.
Proof.
  intros Hs Ht. destruct (handleTap_in_sync t1 p Hs) as [p1 [E1 [S1 [L1 _]]]].
  rewrite E1. simpl obind.
  destruct S1 as [[e [He Hro]] [Hm Hc]].
  rewrite (handleTap_cases t2 p1 e He), L1.
  rewrite (proj2 (Z.ltb_lt _ _) Ht), andb_true_l.
  destruct (isReadOnly p1) eqn:R.
  - eexists. split; [reflexivity|]. split; [reflexivity|]. split; [|reflexivity].
    cbn. split; [eexists; split; reflexivity|].
    split; intros b H; exact (option_map_const _ _ _ H).
  - eexists. split; [reflexivity|]. split; [exact R|]. split; [|reflexivity].
    unfold in_sync; cbn. rewrite R. split; [exists e; auto|split; assumption].
Qed.

Lemma X11_witness :
  in_sync (sample_page true) /\ 1200 - 1000 < 300 /\
  exists p2, obind (handleTap 1000 (sample_page true)) (handleTap 1200) = Normal p2 /\
             isReadOnly p2 = false /\ in_sync p2 /\ lastTapTime p2 = 1200.
Proof.
  assert (H : in_sync (sample_page true)).
  { split; [eexists; split; reflexivity|].
    split; intros b E; injection E as <-; reflexivity. }
  split; [exact H|]. split; [lia|].
  exact (X11_double_tap 1000 1200 (sample_page true) H ltac:(lia)).
Defined.

(** X12: taps each at least 300 ms after the previous tap never change the
    mode: after them [isReadOnly] is what it was. *)
Theorem X12_spaced_taps p times :
  in_sync p -> spaced_taps (lastTapTime p) times = true ->
  exists p', taps p times = Normal p' /\ in_sync p' /\ isReadOnly p' = isReadOnly p.
Proof.
  revert p. induction times as [|t ts IH]; intros p Hs Hsp; [exists p; auto|].
  simpl in Hsp. apply andb_true_iff in Hsp as [H1 H2]. apply Z.leb_le in H1.
  destruct Hs as [[e [He Hro]] [Hm Hc]].
  assert (Ht : handleTap t p = Normal (set_lastTapTime t p)).
  { rewrite (handleTap_cases t p e He). rewrite (proj2 (Z.ltb_ge _ _)) by lia. reflexivity. }
  assert (Hs' : in_sync (set_lastTapTime t p)).
  { unfold in_sync; cbn. split; [exists e; auto|split; assumption]. }
  destruct (IH (set_lastTapTime t p) Hs' H2) as [p' [E [S' R]]].
  exists p'. split; [|split; [exact S'|exact R]].
  unfold taps. simpl fold_left. rewrite Ht. exact E.
Qed.

Lemma X12_witness :
  in_sync (sample_page true) /\ spaced_taps 0 [1000; 1400; 2000] = true /\
  exists p', taps (sample_page true) [1000; 1400; 2000] = Normal p' /\ in_sync p' /\
             isReadOnly p' = true.
Proof.
  assert (H : in_sync (sample_page true)).
  { split; [eexists; split; reflexivity|].
    split; intros b E; injection E as <-; reflexivity. }
  split; [exact H|]. split; [reflexivity|].
  exact (X12_spaced_taps (sample_page true) [1000; 1400; 2000] H eq_refl).
Defined.

(** X13: a burst of debounced calls, each less than [delay] after the one
    before, runs the function once, [delay] after the last call. *)
Theorem X13_debounce_burst delay t ts :
  close_calls delay t ts = true -> debounce_runs delay (t :: ts) = [last (t :: ts) 0 + delay].
Proof.
  intros H. unfold debounce_runs. cbn [debounce_go app]. apply debounce_go_close, H.
Qed.

Lemma X13_witness :
  close_calls 1500 0 [1000; 2000; 2400] = true /\
  debounce_runs 1500 [0; 1000; 2000; 2400] = [3900].
Proof. split; [reflexivity|]. exact (X13_debounce_burst 1500 0 [1000; 2000; 2400] eq_refl). Defined.

(** X14: a debounced function runs at most once per call, and its last run
    is [delay] after the last call. *)
Theorem X14_debounce_last delay t ts :
  exists pre, debounce_runs delay (t :: ts) = pre ++ [last (t :: ts) 0 + delay] /\
              (List.length pre <= List.length ts)%nat.
Proof.
  destruct (debounce_go_last delay None t ts) as [pre [E L]].
  exists pre. split; [exact E|lia].
Qed.

(** X15: the language detected from the content is a language Monaco has
    loaded, or [plaintext]. *)
Theorem X15_detect_available runModel avail code :
  In (detectLanguageFromContent runModel avail code) avail \/
  detectLanguageFromContent runModel avail code = js "plaintext".
Proof.
  unfold detectLanguageFromContent. destruct (runModel code); [right; reflexivity|].
  apply getMonacoLang_range.
Qed.

(** X16: for the status of a URL of [n] characters, [showUrlWarning] shows
    no toast when [n <= 2000], the warning toast when [2000 < n <= 8000] and
    the error toast when [n > 8000], and sets the indicator class
    accordingly. *)
Theorem X16_warning_toast n p :
  urlWarning (showUrlWarning (url_status n) p)
  = (if n <=? 2000 then None else Some (8000 <? n)) /\
  urlStatus (showUrlWarning (url_status n) p)
  = option_map (fun _ => if 8000 <? n then status_error
                         else if 2000 <? n then status_warning else status_ok) (urlStatus p).
Proof.
  unfold showUrlWarning, updateUrlStatus, url_status, URL_WARNING_LIMIT, URL_ERROR_LIMIT.
  cbn [isWarning isError].
  destruct (urlStatus p) eqn:U; cbn;
  destruct (Z.leb_spec n 2000), (Z.ltb_spec 2000 n), (Z.leb_spec n 8000), (Z.ltb_spec 8000 n);
  try lia; simpl; rewrite ?U; split; reflexivity.
Qed.

(** X17: when the editor is editable, the debounced change handler sets the
    language to the detected one and saves the code: either the error toast
    is shown and the URL is unchanged, or no error toast is shown and
    reading the URL gives the normalized code with the detected language.
    This holds when the detected language is a valid identifier and the
    normalized editor text is well-formed UTF-16 without a code point in
    U+E000-U+E01E. *)
Theorem X17_edit_saved F (HF : fflate_ok F) runModel avail p e :
  editor p = Some e -> isReadOnly p = false ->
  let d := detectLanguageFromContent runModel avail (value e) in
  valid_lang d = true -> wf16 (normalizeCode (value e)) = true ->
  no_reserved (normalizeCode (value e)) = true ->
  let p' := handleCodeChange F runModel avail p in
  currentLanguage p' = d /\
  ((urlWarning p' = Some true /\ win p' = win p) \/
   (urlWarning p' <> Some true /\
    readUrlHash F (win p') = Some {| code := normalizeCode (value e); lang := Some d |})).
Proof.
  intros He Hro d Hl Hw Hr. cbv zeta. unfold handleCodeChange. rewrite He, Hro.
  cbn [negb]. cbv zeta. fold d.
  set (p1 := if negb (str_eqb d (currentLanguage p))
             then set_editor (Some (setModelLanguage d e)) (set_currentLanguage d p) else p).
  assert (H1 : currentLanguage p1 = d /\ win p1 = win p).
  { unfold p1. destruct (str_eqb d (currentLanguage p)) eqn:E; simpl; [|auto].
    apply str_eqb_eq in E. auto. }
  clearbody p1. destruct H1 as [C1 W1]. rewrite C1, W1.
  destruct (showUrlWarning_fields (fst (updateUrlHash F (value e) (Some d) (win p)))
              (set_win (snd (updateUrlHash F (value e) (Some d) (win p))) p1))
    as [SW [SC SU]].
  rewrite SW, SC, SU. cbn [win currentLanguage set_win]. split; [exact C1|].
  rewrite updateUrlHash_eq. cbv zeta.
  destruct (isError (url_status _)) eqn:E; cbn [fst snd].
  - left. rewrite E, andb_false_r. split; reflexivity.
  - right. rewrite E. change (negb false) with true. rewrite andb_true_r.
    split; [match goal with |- (if ?b then _ else _) <> _ => destruct b end; congruence|].
    exact (decode_encode_lang F HF (value e) d Hw Hr Hl).
Qed.

Lemma X17_witness :
  let p' := handleCodeChange Sample (fun _ => [js "py"]) [js "python"] (sample_page false) in
  currentLanguage p' = js "python" /\
  ((urlWarning p' = Some true /\ win p' = sample_window) \/
   (urlWarning p' <> Some true /\
    readUrlHash Sample (win p') = Some {| code := js "x"; lang := Some (js "python") |})).
Proof.
  exact (X17_edit_saved Sample Sample_ok (fun _ => [js "py"]) [js "python"] (sample_page false)
           {| value := js "x"; language := js "plaintext"; readOnly := false; focused := false |}
           eq_refl eq_refl eq_refl eq_refl eq_refl).
Defined.

(** X18: choosing another language in the selector writes the URL even in
    read-only mode: when the chosen language is a valid identifier, the
    normalized editor text is well-formed UTF-16 without a code point in
    U+E000-U+E01E and the full URL has at most 8000 characters, reading it
    gives the normalized editor text with the chosen language, and the mode
    is unchanged. *)
Theorem X18_language_change F (HF : fflate_ok F) l p e :
  editor p = Some e -> str_eqb l (currentLanguage p) = false -> valid_lang l = true ->
  wf16 (normalizeCode (value e)) = true -> no_reserved (normalizeCode (value e)) = true ->
  Z.of_nat (List.length (origin (win p) ++ pathname (win p) ++ [HASH] ++
                         encode F (value e) (Some l))) <= 8000 ->
  let p' := onLanguageChange F l p in
  readUrlHash F (win p') = Some {| code := normalizeCode (value e); lang := Some l |} /\
  currentLanguage p' = l /\ isReadOnly p' = isReadOnly p.
Proof.
  intros He Hne Hl Hw Hr Hn. cbv zeta. unfold onLanguageChange. rewrite Hne. simpl negb.
  cbv zeta. cbn [editor set_currentLanguage]. rewrite He. cbn.
  destruct (readUrlHash_updateUrlHash F (value e) (Some l) (win p)) as [A _].
  split; [|split; reflexivity].
  rewrite (A Hn). apply decode_encode_lang; assumption.
Qed.

Lemma X18_witness :
  readUrlHash Sample (win (onLanguageChange Sample (js "python") (sample_page true)))
  = Some {| code := js "x"; lang := Some (js "python") |} /\
  currentLanguage (onLanguageChange Sample (js "python") (sample_page true)) = js "python" /\
  isReadOnly (onLanguageChange Sample (js "python") (sample_page true)) = true.
Proof.
  apply (X18_language_change Sample Sample_ok (js "python") (sample_page true)
           {| value := js "x"; language := js "plaintext"; readOnly := true; focused := false |});
    try reflexivity.
  apply Z.leb_le. vm_compute. reflexivity.
Defined.

(** X19: opening a link written by [updateUrlHash] with a valid language and
    a code whose normalization is non-empty, well-formed UTF-16 and without
    a code point in U+E000-U+E01E (full URL of at most 8000 characters)
    starts the page read-only, with the normalized code in the editor and
    the link's language, without running the detection. *)
Theorem X19_open_link F (HF : fflate_ok F) runModel avail p c l w :
  containerReadOnly p <> None ->
  hash (win p) = hash (snd (updateUrlHash F c (Some l) w)) ->
  Z.of_nat (List.length (origin w ++ pathname w ++ [HASH] ++ encode F c (Some l))) <= 8000 ->
  valid_lang l = true -> wf16 (normalizeCode c) = true ->
  no_reserved (normalizeCode c) = true -> normalizeCode c <> [] ->
  let p' := init F runModel avail p in
  isReadOnly p' = true /\ currentLanguage p' = l /\
  editor p' = Some {| value := normalizeCode c; language := l; readOnly := true;
                      focused := false |} /\
  modeIndicator p' = option_map (fun _ => true) (modeIndicator p) /\
  containerReadOnly p' = Some true.
Proof.
  intros Hc Hh Hn Hl Hw Hr Hne. cbv zeta.
  assert (R : readUrlHash F (win p) = Some {| code := normalizeCode c; lang := Some l |}).
  { unfold readUrlHash at 1. rewrite Hh.
    exact (proj1 (read_after_update F HF c l w Hw Hr Hl) Hn). }
  unfold init. destruct (containerReadOnly p) as [b|] eqn:Ec; [|contradiction].
  rewrite R. cbn [code lang].
  destruct (normalizeCode c) as [|u nc]; [contradiction|].
  destruct l as [|a l']; [discriminate|]. cbn. rewrite Ec. repeat split.
Qed.

Lemma X19_witness :
  let p' := init Sample (fun _ => []) []
              (fresh_page (snd (updateUrlHash Sample (js "x") (Some (js "js")) sample_window))) in
  isReadOnly p' = true /\ currentLanguage p' = js "js" /\
  editor p' = Some {| value := normalizeCode (js "x"); language := js "js"; readOnly := true;
                      focused := false |} /\
  modeIndicator p' = option_map (fun _ => true) (Some false) /\
  containerReadOnly p' = Some true.
Proof.
  apply (X19_open_link Sample Sample_ok (fun _ => []) []
           (fresh_page (snd (updateUrlHash Sample (js "x") (Some (js "js")) sample_window)))
           (js "x") (js "js") sample_window); try reflexivity; try discriminate.
Defined.

(** X20: opening the page with a URL fragment that does not decode starts it
    editable and focused, with an empty editor in [plaintext], without
    running the detection. *)
Theorem X20_open_bad_link F runModel avail p :
  containerReadOnly p <> None -> readUrlHash F (win p) = None ->
  let p' := init F runModel avail p in
  isReadOnly p' = false /\ currentLanguage p' = js "plaintext" /\
  editor p' = Some {| value := []; language := js "plaintext"; readOnly := false;
                      focused := true |} /\
  containerReadOnly p' = Some false.
Proof.
  intros Hc Hr. cbv zeta. unfold init.
  destruct (containerReadOnly p) as [b|] eqn:Ec; [|contradiction].
  rewrite Hr. cbn. rewrite Ec. repeat split.
Qed.

Lemma X20_witness :
  let p' := init Sample (fun _ => [js "py"]) [js "python"]
              (fresh_page {| origin := js "https://snippt.link"; pathname := js "/";
                             hash := js "#not-valid!!"; back := [] |}) in
  isReadOnly p' = false /\ currentLanguage p' = js "plaintext" /\
  editor p' = Some {| value := []; language := js "plaintext"; readOnly := false;
                      focused := true |} /\
  containerReadOnly p' = Some false.
Proof.
  apply X20_open_bad_link; [discriminate|vm_compute; reflexivity].
Defined.

Lemma drop_while_all f l : forallb f l = true -> drop_while f l = [].
Proof.
  induction l as [|a l IH]; simpl; [reflexivity|]. intros H.
  apply andb_true_iff in H as [Ha H]. rewrite Ha. exact (IH H).
Qed.

Lemma trim_blank s : forallb is_ws s = true -> trim s = [].
Proof.
  intros H. unfold trim, trimEnd. rewrite drop_while_all; [reflexivity|].
  apply forallb_forall. intros x Hx. apply in_rev in Hx. exact (forallb_In _ _ _ H Hx).
Qed.

Lemma hd_split_go_char k r cur :
  hd [] (split_go [k] r O cur) = rev cur ++ hd [] (split_go [k] r O []).
Proof.
  revert cur. induction r as [|c r IH]; intros cur; simpl; [rewrite app_nil_r; reflexivity|].
  destruct (k =? c); simpl; [rewrite app_nil_r; reflexivity|].
  rewrite IH, (IH [c]). simpl. rewrite <- app_assoc. reflexivity.
Qed.

Lemma hd_split_app p r :
  ~ In LF p -> hd [] (split (p ++ r) [LF]) = p ++ hd [] (split r [LF]).
Proof.
  intros H. unfold split. rewrite split_go_char_skip by exact H.
  rewrite hd_split_go_char, app_nil_r, rev_involutive. reflexivity.
Qed.

(** X21: code made only of whitespace (or empty) is detected as
    [plaintext] by the pattern-based detector. *)
Theorem X21_detect_blank JSON_parse_ok code :
  forallb is_ws code = true ->
  RegexDetect.detectLanguageFromContent JSON_parse_ok code = js "plaintext".
Proof.
  intros H. unfold RegexDetect.detectLanguageFromContent. rewrite (trim_blank code H).
  reflexivity.
Qed.

Lemma X21_witness :
  forallb is_ws [32; 10; 9; 13; 10] = true /\
  RegexDetect.detectLanguageFromContent (fun _ => true) [32; 10; 9; 13; 10] = js "plaintext".
Proof. split; [reflexivity|]. apply X21_detect_blank. reflexivity. Defined.

(** X22: the pattern-based detector labels every code whose trimmed text
    starts with [import ], [from ], [def ], [class ], [if __name__] or
    [async def ] as [python]: no earlier test (HTML, JSON, YAML) can match
    it, so JavaScript modules and classes starting so are never
    [javascript]. *)
Theorem X22_detect_python JSON_parse_ok code p r :
  In p RegexDetect.python_prefixes -> trim code = p ++ r ->
  RegexDetect.detectLanguageFromContent JSON_parse_ok code = js "python".
Proof.
  intros Hp Ht. unfold RegexDetect.detectLanguageFromContent. rewrite Ht.
  rewrite hd_split_app
    by (intros Hin; repeat (destruct Hp as [<-|Hp]; [vm_compute in Hin; intuition discriminate|]);
        destruct Hp).
  repeat (destruct Hp as [<-|Hp]; [reflexivity|]). destruct Hp.
Qed.

Lemma X22_witness :
  In (js "import ") RegexDetect.python_prefixes /\
  trim (js "  import x from 'y'") = js "import " ++ js "x from 'y'" /\
  RegexDetect.detectLanguageFromContent (fun _ => true) (js "  import x from 'y'")
  = js "python".
Proof.
  split; [left; reflexivity|]. split; [reflexivity|].
  apply (X22_detect_python (fun _ => true) (js "  import x from 'y'") (js "import ")
           (js "x from 'y'")); [left|]; reflexivity.
Defined.
